(** * pyru prototype: scanner, recursive-descent parser and evaluator

    A shallow embedding of [src/prototype.py] and the properties of its
    scan / parse / evaluate pipeline.

    Python values are modelled as follows.
    - [str] is [string]; [source[i]] is [String.get] and raises
      [IndexError] out of range; [source[a:b]] is [substring].  A
      character outside ASCII is its bytes, which the scanner refuses
      like any character it does not know.
    - [list] is [list]; [tokens[i]] is [nth_error], [IndexError] out of
      range; indices are [nat] (the code never builds a negative index,
      [tokens[-1]] is modelled as the last element).
    - [float] is the binary64 type [PrimFloat.float]; [+ - *] are the
      IEEE operations, [/] raises [ZeroDivisionError] on a zero divisor.
    - an exception is a value of [exn]; a computation returns a [result].
    - [while] loops and the mutual recursion of the parser take a fuel
      argument; running out of fuel is the separate outcome [OutOfFuel],
      and the entry points are proved never to produce it
      ([scan_fuel_enough], [parse_expression_fuel], [main_ends]).
    - the recursion limit of the interpreter is not modelled: on a very
      long or very deeply nested input the program stops with
      [RecursionError] in the parser, in [print(ast)] or in
      [Expr.evaluate], where this model goes on.  The calls of [print]
      are left out. *)

From Stdlib Require Import Bool Arith Lia List String Ascii ZArith.
From Stdlib Require Import PrimFloat SpecFloat FloatOps.
Import ListNotations.
Open Scope string_scope.
Open Scope list_scope.
Open Scope nat_scope.

(** * The program *)

(** ** Exceptions and results *)

Inductive exn : Type :=
| ValueError (msg : string)
| IndexError
| TypeError
| AttributeError
| ZeroDivisionError.

Inductive result (A : Type) : Type :=
| Ok (a : A)
| Raise (e : exn)
| OutOfFuel.

Arguments Ok {A} a.
Arguments Raise {A} e.
Arguments OutOfFuel {A}.

Definition bind {A B : Type} (m : result A) (k : A -> result B) : result B :=
  match m with
  | Ok a => k a
  | Raise e => Raise e
  | OutOfFuel => OutOfFuel
  end.

Notation "x <- m ;; k" := (bind m (fun x => k))
  (at level 61, m at next level, right associativity).
Notation "' pat <- m ;; k" := (bind m (fun x => match x with pat => k end))
  (at level 61, pat pattern, m at next level, right associativity).

(** ** Tokens *)

Inductive TokenType : Type :=
| PLUS | MINUS | ASTERISK | FSLASH | LBRACKET | RBRACKET | NUM | DOT.

Definition TokenType_eqb (a b : TokenType) : bool :=
  match a, b with
  | PLUS, PLUS | MINUS, MINUS | ASTERISK, ASTERISK | FSLASH, FSLASH
  | LBRACKET, LBRACKET | RBRACKET, RBRACKET | NUM, NUM | DOT, DOT => true
  | _, _ => false
  end.

(** [x in (a, b, ...)] on token types. *)
Definition ttype_in (x : TokenType) (l : list TokenType) : bool :=
  existsb (TokenType_eqb x) l.

(** [class Token]: [Token(ttype, value=None, length=1)]. *)
Record Token : Type := mkToken {
  get_ttype : TokenType;
  get_value : option string;
  get_length : nat
}.

Definition Token1 (ttype : TokenType) : Token := mkToken ttype None 1.

(** ** Expression trees

    The parser returns either a [Token] (a number) or an [Expr] object
    whose children are again tokens or [Expr] objects. *)

Inductive ast : Type :=
| Tok (t : Token)
| Expr (left_ : ast) (op : Token) (right_ : ast).

(** ** Lists and strings *)

(** [tokens[curr]] *)
Definition item {A : Type} (l : list A) (i : nat) : result A :=
  match nth_error l i with
  | Some a => Ok a
  | None => Raise IndexError
  end.

(** [source[curr]] *)
Definition char_at (source : string) (i : nat) : result ascii :=
  match String.get i source with
  | Some c => Ok c
  | None => Raise IndexError
  end.

(** [l[i:j]] for [0 <= i], [0 <= j]. *)
Definition slice {A : Type} (l : list A) (i j : nat) : list A :=
  firstn (j - i) (skipn i l).

Definition digits : list ascii :=
  ["0"; "1"; "2"; "3"; "4"; "5"; "6"; "7"; "8"; "9"]%char.

(** [c in ['0', ..., '9']] *)
Definition is_digit (c : ascii) : bool := existsb (Ascii.eqb c) digits.

(** ** Floats *)

(** Value of a digit character. *)
Definition digit_val (c : ascii) : Z := Z.of_nat (nat_of_ascii c) - 48.

(** Reads digits from [s] onto the accumulator [acc]; returns the
    number read, how many digits it had, and the rest of the string. *)
Fixpoint read_digits (s : string) (acc : Z) (n : nat) : Z * nat * string :=
  match s with
  | String c s' =>
      if is_digit c then read_digits s' (10 * acc + digit_val c)%Z (S n)
      else (acc, n, s)
  | EmptyString => (acc, n, s)
  end.

Definition Z2SF (z : Z) : spec_float :=
  match z with
  | Zpos p => S754_finite false p 0
  | Zneg p => S754_finite true p 0
  | Z0 => S754_zero false
  end.

(** The binary64 number nearest to [m / 10^k] (ties to even). *)
Definition decimal_to_float (m : Z) (k : nat) : float :=
  SF2Prim (SFdiv prec emax (Z2SF m) (Z2SF (10 ^ Z.of_nat k))).

(** [float(s)] for a [str]: an unsigned decimal literal, digits with an
    optional point, as the scanner produces them.  Any other text is
    answered with [ValueError] (Python also reads signs, exponents and
    blanks, which no token of this program carries). *)
Definition float_of_str (s : string) : result float :=
  let '(m, n, rest) := read_digits s 0%Z 0 in
  match rest with
  | EmptyString =>
      if n =? 0 then Raise (ValueError "could not convert string to float")
      else Ok (decimal_to_float m 0)
  | String c rest' =>
      if Ascii.eqb c "." then
        let '(m', k, rest'') := read_digits rest' m 0 in
        match rest'' with
        | EmptyString =>
            if (n + k =? 0) then
              Raise (ValueError "could not convert string to float")
            else Ok (decimal_to_float m' k)
        | String _ _ => Raise (ValueError "could not convert string to float")
        end
      else Raise (ValueError "could not convert string to float")
  end.

(** [float(token.get_value())]: [float(None)] is a [TypeError]. *)
Definition float_of_value (v : option string) : result float :=
  match v with
  | Some s => float_of_str s
  | None => Raise TypeError
  end.

(** ** Evaluator: [Expr.evaluate] *)

(** The [match self.__op.get_ttype()] of [Expr.evaluate]. *)
Definition apply_op (op : Token) (left_value right_value : float) : result float :=
  match get_ttype op with
  | PLUS => Ok (left_value + right_value)%float
  | MINUS => Ok (left_value - right_value)%float
  | ASTERISK => Ok (left_value * right_value)%float
  | FSLASH =>
      if PrimFloat.eqb right_value 0%float then Raise ZeroDivisionError
      else Ok (left_value / right_value)%float
  | _ => Raise (ValueError "Unknown operator")
  end.

(** [x.evaluate() if isinstance(x, Expr) else float(x.get_value())],
    with the body of [Expr.evaluate] in the first case. *)
Fixpoint operand_value (x : ast) : result float :=
  match x with
  | Tok t => float_of_value (get_value t)
  | Expr left_ op right_ =>
      left_value <- operand_value left_ ;;
      right_value <- operand_value right_ ;;
      apply_op op left_value right_value
  end.

(** The method [Expr.evaluate] of the object [Expr(left, op, right)]. *)
Definition Expr_evaluate (left_ : ast) (op : Token) (right_ : ast) : result float :=
  left_value <- operand_value left_ ;;
  right_value <- operand_value right_ ;;
  apply_op op left_value right_value.

(** The call [ast.evaluate()] of [main]: a [Token] has no such method. *)
Definition evaluate (a : ast) : result float :=
  match a with
  | Tok _ => Raise AttributeError
  | Expr left_ op right_ => Expr_evaluate left_ op right_
  end.

(** ** Parser *)

(** [consume_token(tokens, curr, ttype, msg)] *)
Definition consume_token (tokens : list Token) (curr : nat)
    (ttype : TokenType) (msg : string) : result nat :=
  if curr <? List.length tokens then
    tok <- item tokens curr ;;
    if TokenType_eqb (get_ttype tok) ttype then Ok (curr + 1)
    else Raise (ValueError msg)
  else Raise (ValueError msg).

(** [parse_expression], [parse_term] and [parse_factor]; the two
    [while] loops are [parse_expression_while] and [parse_term_while],
    entered with the [left] and [curr] of the loop head. *)
Fixpoint parse_expression (fuel : nat) (tokens : list Token) (curr : nat)
    {struct fuel} : result (ast * nat) :=
  match fuel with
  | 0 => OutOfFuel
  | S fuel =>
      '(left_, curr) <- parse_term fuel tokens curr ;;
      parse_expression_while fuel tokens left_ curr
  end

with parse_expression_while (fuel : nat) (tokens : list Token) (left_ : ast)
    (curr : nat) {struct fuel} : result (ast * nat) :=
  match fuel with
  | 0 => OutOfFuel
  | S fuel =>
      if curr <? List.length tokens then
        op <- item tokens curr ;;
        if ttype_in (get_ttype op) [PLUS; MINUS] then
          let curr := curr + 1 in
          '(right_, curr) <- parse_term fuel tokens curr ;;
          parse_expression_while fuel tokens (Expr left_ op right_) curr
        else Ok (left_, curr)
      else Ok (left_, curr)
  end

with parse_term (fuel : nat) (tokens : list Token) (curr : nat)
    {struct fuel} : result (ast * nat) :=
  match fuel with
  | 0 => OutOfFuel
  | S fuel =>
      '(left_, curr) <- parse_factor fuel tokens curr ;;
      parse_term_while fuel tokens left_ curr
  end

with parse_term_while (fuel : nat) (tokens : list Token) (left_ : ast)
    (curr : nat) {struct fuel} : result (ast * nat) :=
  match fuel with
  | 0 => OutOfFuel
  | S fuel =>
      if curr <? List.length tokens then
        op <- item tokens curr ;;
        if ttype_in (get_ttype op) [ASTERISK; FSLASH] then
          let curr := curr + 1 in
          '(right_, curr) <- parse_factor fuel tokens curr ;;
          parse_term_while fuel tokens (Expr left_ op right_) curr
        else Ok (left_, curr)
      else Ok (left_, curr)
  end

with parse_factor (fuel : nat) (tokens : list Token) (curr : nat)
    {struct fuel} : result (ast * nat) :=
  match fuel with
  | 0 => OutOfFuel
  | S fuel =>
      token <- item tokens curr ;;
      if TokenType_eqb (get_ttype token) NUM then Ok (Tok token, curr + 1)
      else if TokenType_eqb (get_ttype token) LBRACKET then
        let curr := curr + 1 in
        '(expr, curr) <- parse_expression fuel tokens curr ;;
        curr <- consume_token tokens curr RBRACKET "Expected closing bracket" ;;
        Ok (expr, curr)
      else Raise (ValueError "Unexpected token")
  end.

(** Fuel that the parser cannot use up on [tokens] (see
    [parse_expression_fuel]). *)
Definition parse_fuel (tokens : list Token) : nat := 3 * List.length tokens + 3.

(** ** Scanner *)

(** First loop of [scan_num]: the digits before the point. *)
Fixpoint scan_num_int (fuel : nat) (source : string) (curr : nat)
    {struct fuel} : result nat :=
  match fuel with
  | 0 => OutOfFuel
  | S fuel =>
      if curr <? String.length source - 1 then
        c <- char_at source (curr + 1) ;;
        if is_digit c then scan_num_int fuel source (curr + 1)
        else Ok curr
      else Ok curr
  end.

(** Second loop of [scan_num]: the digits after the point. *)
Fixpoint scan_num_frac (fuel : nat) (source : string) (curr : nat)
    {struct fuel} : result nat :=
  match fuel with
  | 0 => OutOfFuel
  | S fuel =>
      if curr <? String.length source - 1 then
        c <- char_at source (curr + 1) ;;
        if is_digit c then scan_num_frac fuel source (curr + 1)
        else if Ascii.eqb c "." then
          Raise (ValueError "Number has two decimal points")
        else Ok curr
      else Ok curr
  end.

(** Fuel for the loops over [source]: each turn moves [curr] forward
    and there is one more test than there are turns. *)
Definition scan_fuel (source : string) : nat := String.length source + 1.

(** [scan_num(source, curr)]: the index of the last character of the
    number that starts at [curr]. *)
Definition scan_num (source : string) (curr : nat) : result nat :=
  curr <- scan_num_int (scan_fuel source) source curr ;;
  if curr <? String.length source - 1 then
    c <- char_at source (curr + 1) ;;
    if Ascii.eqb c "." then
      let curr := curr + 1 in
      scan_num_frac (scan_fuel source) source curr
    else Ok curr
  else Ok curr.

(** The scanning loop of [main], from the loop head with the current
    [curr] and [tokens]. *)
Fixpoint scan_while (fuel : nat) (source : string) (curr : nat)
    (tokens : list Token) {struct fuel} : result (list Token) :=
  match fuel with
  | 0 => OutOfFuel
  | S fuel =>
      if curr <? String.length source then
        c <- char_at source curr ;;
        if is_digit c then
          let initial := curr in
          curr <- scan_num source curr ;;
          scan_while fuel source (curr + 1)
            (tokens ++ [mkToken NUM
                          (Some (substring initial (curr + 1 - initial) source))
                          (curr - initial + 1)])
        else if Ascii.eqb c "+" then
          scan_while fuel source (curr + 1) (tokens ++ [Token1 PLUS])
        else if Ascii.eqb c "-" then
          scan_while fuel source (curr + 1) (tokens ++ [Token1 MINUS])
        else if Ascii.eqb c "*" then
          scan_while fuel source (curr + 1) (tokens ++ [Token1 ASTERISK])
        else if Ascii.eqb c "/" then
          scan_while fuel source (curr + 1) (tokens ++ [Token1 FSLASH])
        else if Ascii.eqb c "(" then
          scan_while fuel source (curr + 1) (tokens ++ [Token1 LBRACKET])
        else if Ascii.eqb c ")" then
          scan_while fuel source (curr + 1) (tokens ++ [Token1 RBRACKET])
        else if Ascii.eqb c "." then
          scan_while fuel source (curr + 1) (tokens ++ [Token1 DOT])
        else if Ascii.eqb c " " then
          scan_while fuel source (curr + 1) tokens
        else Raise (ValueError "")
      else Ok tokens
  end.

(** ** The three stages of [main] *)

(** Scanning: [source] to [tokens]. *)
Definition scan (source : string) : result (list Token) :=
  scan_while (scan_fuel source) source 0 [].

(** [tokens[-1]] *)
Definition last_item (tokens : list Token) : result Token :=
  item tokens (List.length tokens - 1).

(** The outer bracket test at the head of the parsing stage of [main]:
    the new value of [tokens]. *)
Definition outer_brackets (tokens : list Token) : result (list Token) :=
  first <- item tokens 0 ;;
  if TokenType_eqb (get_ttype first) LBRACKET then
    last <- last_item tokens ;;
    if TokenType_eqb (get_ttype last) RBRACKET then
      Ok (slice tokens 1 (List.length tokens - 1))
    else Raise (ValueError "Expected closing bracket")
  else Ok tokens.

(** Parsing: the outer bracket test, then [parse_expression(tokens, 0)],
    of which the tree is kept. *)
Definition parse (tokens : list Token) : result ast :=
  tokens <- outer_brackets tokens ;;
  '(a, _) <- parse_expression (parse_fuel tokens) tokens 0 ;;
  Ok a.

(** [main] on the line read by [input]: the value of [result].  The two
    calls of [print] are left out; they do not change [result], and
    [print(ast)] can only fail by the recursion limit of the interpreter,
    which is not modelled. *)
Definition main (source : string) : result float :=
  tokens <- scan source ;;
  a <- parse tokens ;;
  evaluate a.

(** * Notions used in the properties *)

(** ** Texts and tokens *)

(** The token of the number written [s]. *)
Definition num (s : string) : Token := mkToken NUM (Some s) (String.length s).

(** [source[i]] is a digit; false out of range. *)
Definition digit_at (source : string) (i : nat) : bool :=
  match String.get i source with
  | Some c => is_digit c
  | None => false
  end.

(** [source[i]] is a point. *)
Definition point_at (source : string) (i : nat) : bool :=
  match String.get i source with
  | Some c => Ascii.eqb c "."
  | None => false
  end.

(** [s] is made of digits. *)
Fixpoint all_digits (s : string) : bool :=
  match s with
  | String c s' => is_digit c && all_digits s'
  | EmptyString => true
  end.

(** A text that holds, after [pre], digits [d1], a point, digits [d2]
    and a second point. *)
Definition two_points (pre d1 d2 rest : string) : string :=
  pre ++ d1 ++ "." ++ d2 ++ "." ++ rest.

(** A [NUM] token is a literal when [float] reads its value. *)
Definition literal (tok : Token) : Prop :=
  get_ttype tok = NUM -> exists x, float_of_value (get_value tok) = Ok x.

(** ** Trees *)

(** The tokens kept in a tree, leaves and operators, left to right. *)
Fixpoint tokens_of (x : ast) : list Token :=
  match x with
  | Tok t => [t]
  | Expr left_ op right_ => tokens_of left_ ++ op :: tokens_of right_
  end.

(** One of the four operators of [Expr.evaluate]. *)
Definition arithmetic (ttype : TokenType) : bool :=
  ttype_in ttype [PLUS; MINUS; ASTERISK; FSLASH].

(** Every leaf is a [NUM] token and every operator is one of the four
    arithmetic ones. *)
Fixpoint well_formed (x : ast) : bool :=
  match x with
  | Tok t => TokenType_eqb (get_ttype t) NUM
  | Expr left_ op right_ =>
      well_formed left_ && arithmetic (get_ttype op) && well_formed right_
  end.

(** [t] is returned by one of the three parsing functions, or by the
    parsing stage of [main]. *)
Definition parser_returns (t : ast) : Prop :=
  exists tokens,
    parse tokens = Ok t \/
    exists fuel curr curr',
      parse_expression fuel tokens curr = Ok (t, curr') \/
      parse_term fuel tokens curr = Ok (t, curr') \/
      parse_factor fuel tokens curr = Ok (t, curr').

(** ** Division by zero in a tree

    [zero_division x]: evaluating [x] reaches a division whose right
    operand has evaluated to zero (operands are evaluated left first, and
    an operand that raises ends the evaluation). *)
Fixpoint zero_division (x : ast) : bool :=
  match x with
  | Tok _ => false
  | Expr left_ op right_ =>
      zero_division left_ ||
      match operand_value left_ with
      | Ok _ =>
          zero_division right_ ||
          match operand_value right_ with
          | Ok right_value =>
              TokenType_eqb (get_ttype op) FSLASH &&
              PrimFloat.eqb right_value 0%float
          | _ => false
          end
      | _ => false
      end
  end.

(** ** Successful parses as derivations

    [expression_at tokens curr t curr'] : [parse_expression(tokens, curr)]
    returns [(t, curr')]; likewise for the other functions, and for the
    loops entered with [left_] at [curr]. *)

Inductive expression_at (tokens : list Token) : nat -> ast -> nat -> Prop :=
| expression_at_intro curr left_ curr1 t curr2 :
    term_at tokens curr left_ curr1 ->
    expression_loop tokens left_ curr1 t curr2 ->
    expression_at tokens curr t curr2

with expression_loop (tokens : list Token) : ast -> nat -> ast -> nat -> Prop :=
| expression_loop_exit left_ curr :
    (forall op, nth_error tokens curr = Some op ->
                ttype_in (get_ttype op) [PLUS; MINUS] = false) ->
    expression_loop tokens left_ curr left_ curr
| expression_loop_turn left_ curr op right_ curr1 t curr2 :
    nth_error tokens curr = Some op ->
    ttype_in (get_ttype op) [PLUS; MINUS] = true ->
    term_at tokens (curr + 1) right_ curr1 ->
    expression_loop tokens (Expr left_ op right_) curr1 t curr2 ->
    expression_loop tokens left_ curr t curr2

with term_at (tokens : list Token) : nat -> ast -> nat -> Prop :=
| term_at_intro curr left_ curr1 t curr2 :
    factor_at tokens curr left_ curr1 ->
    term_loop tokens left_ curr1 t curr2 ->
    term_at tokens curr t curr2

with term_loop (tokens : list Token) : ast -> nat -> ast -> nat -> Prop :=
| term_loop_exit left_ curr :
    (forall op, nth_error tokens curr = Some op ->
                ttype_in (get_ttype op) [ASTERISK; FSLASH] = false) ->
    term_loop tokens left_ curr left_ curr
| term_loop_turn left_ curr op right_ curr1 t curr2 :
    nth_error tokens curr = Some op ->
    ttype_in (get_ttype op) [ASTERISK; FSLASH] = true ->
    factor_at tokens (curr + 1) right_ curr1 ->
    term_loop tokens (Expr left_ op right_) curr1 t curr2 ->
    term_loop tokens left_ curr t curr2

with factor_at (tokens : list Token) : nat -> ast -> nat -> Prop :=
| factor_at_num curr token :
    nth_error tokens curr = Some token ->
    get_ttype token = NUM ->
    factor_at tokens curr (Tok token) (curr + 1)
| factor_at_bracket curr token expr curr1 closing :
    nth_error tokens curr = Some token ->
    get_ttype token = LBRACKET ->
    expression_at tokens (curr + 1) expr curr1 ->
    nth_error tokens curr1 = Some closing ->
    get_ttype closing = RBRACKET ->
    factor_at tokens curr expr (curr1 + 1).

Scheme expression_at_mut := Induction for expression_at Sort Prop
  with expression_loop_mut := Induction for expression_loop Sort Prop
  with term_at_mut := Induction for term_at Sort Prop
  with term_loop_mut := Induction for term_loop Sort Prop
  with factor_at_mut := Induction for factor_at Sort Prop.

Combined Scheme parser_derivation_ind from
  expression_at_mut, expression_loop_mut, term_at_mut, term_loop_mut,
  factor_at_mut.

Create HintDb parser.

#[local] Hint Constructors expression_at expression_loop term_at term_loop
  factor_at : parser.

(** ** The parser without fuel

    The result of each function at [curr], computed with the fuel that
    [parser_fuel] shows to be enough; any larger fuel gives the same. *)

Definition expression_result (tokens : list Token) (curr : nat) :=
  parse_expression (3 * (List.length tokens - curr) + 3) tokens curr.

Definition expression_while_result (tokens : list Token) (left_ : ast) (curr : nat) :=
  parse_expression_while (3 * (List.length tokens - curr) + 2) tokens left_ curr.

Definition term_result (tokens : list Token) (curr : nat) :=
  parse_term (3 * (List.length tokens - curr) + 2) tokens curr.

Definition term_while_result (tokens : list Token) (left_ : ast) (curr : nat) :=
  parse_term_while (3 * (List.length tokens - curr) + 1) tokens left_ curr.

Definition factor_result (tokens : list Token) (curr : nat) :=
  parse_factor (3 * (List.length tokens - curr) + 1) tokens curr.

(** ** The calls made by [parse_expression(tokens, 0)]

    [expression_called tokens curr] : the run of
    [parse_expression(tokens, 0)] calls [parse_expression(tokens, curr)];
    likewise for [parse_term] and [parse_factor].
    [expression_while_reached tokens left_ curr] : it comes to the head
    of the loop of [parse_expression] with these [left] and [curr]. *)

Inductive expression_called (tokens : list Token) : nat -> Prop :=
| called_at_top : expression_called tokens 0
| called_in_bracket curr token :
    factor_called tokens curr ->
    nth_error tokens curr = Some token ->
    get_ttype token = LBRACKET ->
    expression_called tokens (curr + 1)

with expression_while_reached (tokens : list Token) : ast -> nat -> Prop :=
| expression_while_entered curr left_ curr1 :
    expression_called tokens curr ->
    term_at tokens curr left_ curr1 ->
    expression_while_reached tokens left_ curr1
| expression_while_again left_ curr op right_ curr1 :
    expression_while_reached tokens left_ curr ->
    nth_error tokens curr = Some op ->
    ttype_in (get_ttype op) [PLUS; MINUS] = true ->
    term_at tokens (curr + 1) right_ curr1 ->
    expression_while_reached tokens (Expr left_ op right_) curr1

with term_called (tokens : list Token) : nat -> Prop :=
| called_first_term curr :
    expression_called tokens curr -> term_called tokens curr
| called_next_term left_ curr op :
    expression_while_reached tokens left_ curr ->
    nth_error tokens curr = Some op ->
    ttype_in (get_ttype op) [PLUS; MINUS] = true ->
    term_called tokens (curr + 1)

with term_while_reached (tokens : list Token) : ast -> nat -> Prop :=
| term_while_entered curr left_ curr1 :
    term_called tokens curr ->
    factor_at tokens curr left_ curr1 ->
    term_while_reached tokens left_ curr1
| term_while_again left_ curr op right_ curr1 :
    term_while_reached tokens left_ curr ->
    nth_error tokens curr = Some op ->
    ttype_in (get_ttype op) [ASTERISK; FSLASH] = true ->
    factor_at tokens (curr + 1) right_ curr1 ->
    term_while_reached tokens (Expr left_ op right_) curr1

with factor_called (tokens : list Token) : nat -> Prop :=
| called_first_factor curr :
    term_called tokens curr -> factor_called tokens curr
| called_next_factor left_ curr op :
    term_while_reached tokens left_ curr ->
    nth_error tokens curr = Some op ->
    ttype_in (get_ttype op) [ASTERISK; FSLASH] = true ->
    factor_called tokens (curr + 1).

Scheme expression_called_mut := Induction for expression_called Sort Prop
  with expression_while_reached_mut := Induction for expression_while_reached Sort Prop
  with term_called_mut := Induction for term_called Sort Prop
  with term_while_reached_mut := Induction for term_while_reached Sort Prop
  with factor_called_mut := Induction for factor_called Sort Prop.

Combined Scheme parser_calls_ind from
  expression_called_mut, expression_while_reached_mut, term_called_mut,
  term_while_reached_mut, factor_called_mut.

(** ** Tokens passed over by a successful call *)


(** ** The grammar

    A token list [ts] is an expression with tree [t]:

      expression := term (('+' | '-') term)*
      term       := factor (('*' | '/') factor)*
      factor     := NUMBER | '(' expression ')'

    with the repetitions grouped to the left. *)

Inductive expression_of : list Token -> ast -> Prop :=
| expression_of_term ts t :
    term_of ts t -> expression_of ts t
| expression_of_more ts1 op ts2 l r :
    expression_of ts1 l ->
    ttype_in (get_ttype op) [PLUS; MINUS] = true ->
    term_of ts2 r ->
    expression_of (ts1 ++ op :: ts2) (Expr l op r)

with term_of : list Token -> ast -> Prop :=
| term_of_factor ts t :
    factor_of ts t -> term_of ts t
| term_of_more ts1 op ts2 l r :
    term_of ts1 l ->
    ttype_in (get_ttype op) [ASTERISK; FSLASH] = true ->
    factor_of ts2 r ->
    term_of (ts1 ++ op :: ts2) (Expr l op r)

with factor_of : list Token -> ast -> Prop :=
| factor_of_number tok :
    get_ttype tok = NUM -> factor_of [tok] (Tok tok)
| factor_of_group opening ts closing t :
    get_ttype opening = LBRACKET ->
    expression_of ts t ->
    get_ttype closing = RBRACKET ->
    factor_of (opening :: ts ++ [closing]) t.

Scheme expression_of_mut := Induction for expression_of Sort Prop
  with term_of_mut := Induction for term_of Sort Prop
  with factor_of_mut := Induction for factor_of Sort Prop.

Combined Scheme grammar_ind from expression_of_mut, term_of_mut, factor_of_mut.

(** ** Texts of the scanner *)

(** The characters for which the scanning loop of [main] has a case. *)
Definition known (c : ascii) : bool :=
  is_digit c ||
  existsb (Ascii.eqb c) ["+"; "-"; "*"; "/"; "("; ")"; "."; " "]%char.

(** [s] is made of spaces. *)
Fixpoint blank (s : string) : bool :=
  match s with
  | String c s' => Ascii.eqb c " " && blank s'
  | EmptyString => true
  end.

(** [s] without its spaces. *)
Fixpoint without_spaces (s : string) : string :=
  match s with
  | String c s' =>
      if Ascii.eqb c " " then without_spaces s' else String c (without_spaces s')
  | EmptyString => EmptyString
  end.

(** The character that the scanner turns into a token of type [ttype];
    a [NUM] token has no such character, it carries its text. *)
Definition symbol (ttype : TokenType) : string :=
  match ttype with
  | PLUS => "+"
  | MINUS => "-"
  | ASTERISK => "*"
  | FSLASH => "/"
  | LBRACKET => "("
  | RBRACKET => ")"
  | DOT => "."
  | NUM => ""
  end.

(** The text a token was scanned from. *)
Definition token_text (tok : Token) : string :=
  match get_value tok with
  | Some s => s
  | None => symbol (get_ttype tok)
  end.

Fixpoint tokens_text (tokens : list Token) : string :=
  match tokens with
  | tok :: tokens' => token_text tok ++ tokens_text tokens'
  | [] => ""
  end.

(** What the scanner puts in a token: a [NUM] token carries a text that
    [float] reads and the length of that text; any other token carries
    no value and the length 1. *)
Definition scanned_token (tok : Token) : Prop :=
  match get_value tok with
  | Some s =>
      get_ttype tok = NUM /\ get_length tok = String.length s /\
      exists x, float_of_str s = Ok x
  | None => get_ttype tok <> NUM /\ get_length tok = 1
  end.

(** ** Brackets *)

Definition is_bracket (tok : Token) : bool :=
  ttype_in (get_ttype tok) [LBRACKET; RBRACKET].

(** [tokens] without the bracket tokens. *)
Definition without_brackets (tokens : list Token) : list Token :=
  filter (fun tok => negb (is_bracket tok)) tokens.

(** ** The exceptions of the parser *)

(** The exceptions that the parsing functions of this model raise (the
    recursion limit of the interpreter is not modelled). *)
Definition parser_errors : list exn :=
  [IndexError; ValueError "Unexpected token";
   ValueError "Expected closing bracket"].

(** ** Points outside numbers *)




(** ** Brackets in the text *)

(** What the text of a token says about brackets: it is not empty, it
    starts with an opening bracket only if the token is [LBRACKET], and
    the text of an [RBRACKET] token is a closing bracket. *)
Definition bracket_text (tok : Token) : Prop :=
  token_text tok <> "" /\
  (String.get 0 (token_text tok) = Some "("%char -> get_ttype tok = LBRACKET) /\
  (get_ttype tok = RBRACKET -> token_text tok = ")").

(** * Properties *)

(** ** Results and indexing *)

Lemma bind_Ok {A B : Type} (m : result A) (k : A -> result B) (b : B) :
  bind m k = Ok b -> exists a, m = Ok a /\ k a = Ok b.
Proof. destruct m; simpl; intros H; try discriminate. eauto. Qed.

Lemma bind_fuel {A B : Type} (m : result A) (k : A -> result B) :
  bind m k <> OutOfFuel -> m <> OutOfFuel.
Proof. destruct m; simpl; congruence. Qed.

Lemma bind_mono {A B : Type} (m m' : result A) (k k' : A -> result B) :
  bind m k <> OutOfFuel ->
  (m <> OutOfFuel -> m' = m) ->
  (forall a, m = Ok a -> k a <> OutOfFuel -> k' a = k a) ->
  bind m' k' = bind m k.
Proof.
  intros Hne Hm Hk. rewrite (Hm (bind_fuel _ _ Hne)).
  destruct m as [a| |]; cbn [bind] in *; [|reflexivity|reflexivity].
  now apply Hk.
Qed.

Lemma bind_ext {A B : Type} (m : result A) (k k' : A -> result B) :
  (forall a, m = Ok a -> k a = k' a) -> bind m k = bind m k'.
Proof. destruct m; cbn [bind]; auto. Qed.

Lemma item_nth {A : Type} (l : list A) (i : nat) :
  item l i = match nth_error l i with Some a => Ok a | None => Raise IndexError end.
Proof. reflexivity. Qed.

Lemma nth_error_in_range {A : Type} (l : list A) (i : nat) (a : A) :
  nth_error l i = Some a -> i < List.length l.
Proof. intros H. apply nth_error_Some. congruence. Qed.

Lemma nth_error_out_of_range {A : Type} (l : list A) (i : nat) :
  nth_error l i = None -> (i <? List.length l) = false.
Proof. intros H. apply Nat.ltb_ge. now apply nth_error_None. Qed.

Lemma nth_error_middle {A : Type} (l1 l2 : list A) (a : A) :
  nth_error (l1 ++ a :: l2) (List.length l1) = Some a.
Proof.
  rewrite nth_error_app2 by lia. now rewrite Nat.sub_diag.
Qed.

Lemma incl_slice {A : Type} (l : list A) (i j : nat) : incl (slice l i j) l.
Proof.
  intros a H. unfold slice in H.
  rewrite <- (firstn_skipn i l). apply in_or_app. right.
  rewrite <- (firstn_skipn (j - i) (skipn i l)). apply in_or_app. now left.
Qed.

Lemma TokenType_eqb_eq (a b : TokenType) : TokenType_eqb a b = true <-> a = b.
Proof. destruct a, b; simpl; split; intros H; try reflexivity; discriminate. Qed.

Lemma TokenType_eqb_neq (a b : TokenType) : TokenType_eqb a b = false <-> a <> b.
Proof. destruct a, b; simpl; split; intros H; try congruence; try discriminate. Qed.

(** Two binary64 numbers that differ by IEEE comparison are different. *)
Lemma float_neq (x y : float) : PrimFloat.eqb x y = false -> PrimFloat.eqb x x = true -> x <> y.
Proof. intros Hxy Hxx E. rewrite <- E in Hxy. congruence. Qed.

(** ** Strings by position *)

Lemma get_None (s : string) : forall i, String.get i s = None <-> String.length s <= i.
Proof.
  induction s as [|c s IH]; intros [|i]; simpl; try rewrite IH;
    split; intros; try lia; try reflexivity; discriminate.
Qed.

Lemma get_append (s1 s2 : string) : forall i,
  String.get i (s1 ++ s2) =
  if i <? String.length s1 then String.get i s1
  else String.get (i - String.length s1) s2.
Proof.
  induction s1 as [|c s1 IH]; intros i; simpl.
  - now rewrite Nat.sub_0_r.
  - destruct i as [|i]; [reflexivity|]. rewrite IH. reflexivity.
Qed.

Lemma all_digits_at (s : string) : forall i,
  all_digits s = true -> i < String.length s -> digit_at s i = true.
Proof.
  unfold digit_at. induction s as [|c s IH]; simpl; intros i H Hi; [lia|].
  apply andb_prop in H as [Hc Hs]. destruct i as [|i]; [exact Hc|].
  apply IH; [exact Hs|lia].
Qed.

Lemma point_not_digit (source : string) (i : nat) :
  point_at source i = true -> digit_at source i = false.
Proof.
  unfold point_at, digit_at. destruct (String.get i source) as [c|]; [|reflexivity].
  intros H. apply Ascii.eqb_eq in H. subst c. reflexivity.
Qed.

Lemma digit_not_point (source : string) (i : nat) :
  digit_at source i = true -> point_at source i = false.
Proof.
  intros H. destruct (point_at source i) eqn:E; [|reflexivity].
  apply point_not_digit in E. congruence.
Qed.

Lemma digit_at_length (source : string) (i : nat) :
  digit_at source i = true -> i < String.length source.
Proof.
  unfold digit_at. intros H.
  destruct (Nat.lt_ge_cases i (String.length source)) as [Hi|Hi]; [exact Hi|].
  apply get_None in Hi. rewrite Hi in H. discriminate.
Qed.

Lemma point_at_length (source : string) (i : nat) :
  point_at source i = true -> i < String.length source.
Proof.
  unfold point_at. intros H.
  destruct (Nat.lt_ge_cases i (String.length source)) as [Hi|Hi]; [exact Hi|].
  apply get_None in Hi. rewrite Hi in H. discriminate.
Qed.

Lemma digit_at_append_r (s1 s2 : string) (i : nat) :
  digit_at (s1 ++ s2) (String.length s1 + i) = digit_at s2 i.
Proof.
  unfold digit_at. rewrite get_append.
  replace (String.length s1 + i <? String.length s1) with false
    by (symmetry; apply Nat.ltb_ge; lia).
  now replace (String.length s1 + i - String.length s1) with i by lia.
Qed.

Lemma point_at_append_r (s1 s2 : string) (i : nat) :
  point_at (s1 ++ s2) (String.length s1 + i) = point_at s2 i.
Proof.
  unfold point_at. rewrite get_append.
  replace (String.length s1 + i <? String.length s1) with false
    by (symmetry; apply Nat.ltb_ge; lia).
  now replace (String.length s1 + i - String.length s1) with i by lia.
Qed.

Lemma digit_at_append_l (s1 s2 : string) (i : nat) :
  i < String.length s1 -> digit_at (s1 ++ s2) i = digit_at s1 i.
Proof.
  intros H. unfold digit_at. rewrite get_append.
  apply Nat.ltb_lt in H. now rewrite H.
Qed.

Lemma substring_step (source : string) : forall a len c,
  String.get a source = Some c ->
  substring a (S len) source = String c (substring (S a) len source).
Proof.
  induction source as [|c0 s IH]; intros a len c H; [destruct a; discriminate|].
  destruct a as [|a].
  - injection H as ->. reflexivity.
  - cbn [String.get] in H. cbn [substring]. now apply IH.
Qed.

Lemma substring_none (source : string) : forall a, substring a 0 source = "".
Proof.
  induction source as [|c0 s IH]; intros [|a]; cbn [substring]; auto.
Qed.

(** ** One turn of each scanner loop *)

Lemma last_index (source : string) (curr : nat) :
  (curr <? String.length source - 1) = true <-> curr + 1 < String.length source.
Proof. rewrite Nat.ltb_lt. lia. Qed.

Lemma scan_num_int_unfold fuel source curr :
  scan_num_int (S fuel) source curr =
  match String.get (curr + 1) source with
  | Some c => if is_digit c then scan_num_int fuel source (curr + 1) else Ok curr
  | None => Ok curr
  end.
Proof.
  cbn [scan_num_int]. unfold char_at.
  destruct (String.get (curr + 1) source) as [c|] eqn:E.
  - assert (H : curr + 1 < String.length source).
    { destruct (Nat.lt_ge_cases (curr + 1) (String.length source)) as [H|H];
        [exact H|]. apply get_None in H. congruence. }
    apply last_index in H. rewrite H. reflexivity.
  - apply get_None in E.
    destruct (curr <? String.length source - 1) eqn:H; [|reflexivity].
    apply last_index in H. lia.
Qed.

Lemma scan_num_frac_unfold fuel source curr :
  scan_num_frac (S fuel) source curr =
  match String.get (curr + 1) source with
  | Some c =>
      if is_digit c then scan_num_frac fuel source (curr + 1)
      else if Ascii.eqb c "." then
        Raise (ValueError "Number has two decimal points")
      else Ok curr
  | None => Ok curr
  end.
Proof.
  cbn [scan_num_frac]. unfold char_at.
  destruct (String.get (curr + 1) source) as [c|] eqn:E.
  - assert (H : curr + 1 < String.length source).
    { destruct (Nat.lt_ge_cases (curr + 1) (String.length source)) as [H|H];
        [exact H|]. apply get_None in H. congruence. }
    apply last_index in H. rewrite H. reflexivity.
  - apply get_None in E.
    destruct (curr <? String.length source - 1) eqn:H; [|reflexivity].
    apply last_index in H. lia.
Qed.

Lemma scan_num_unfold source curr :
  scan_num source curr =
  (curr <- scan_num_int (scan_fuel source) source curr ;;
   match String.get (curr + 1) source with
   | Some c =>
       if Ascii.eqb c "." then scan_num_frac (scan_fuel source) source (curr + 1)
       else Ok curr
   | None => Ok curr
   end).
Proof.
  unfold scan_num. destruct (scan_num_int _ source curr) as [c1| |]; cbn [bind];
    try reflexivity.
  unfold char_at. destruct (String.get (c1 + 1) source) as [c|] eqn:E.
  - assert (H : c1 + 1 < String.length source).
    { destruct (Nat.lt_ge_cases (c1 + 1) (String.length source)) as [H|H];
        [exact H|]. apply get_None in H. congruence. }
    apply last_index in H. rewrite H. reflexivity.
  - apply get_None in E.
    destruct (c1 <? String.length source - 1) eqn:H; [|reflexivity].
    apply last_index in H. lia.
Qed.

(** The loop of [main] at a digit: the number is scanned first. *)
Lemma scan_while_digit fuel source curr tokens :
  digit_at source curr = true ->
  scan_while (S fuel) source curr tokens =
  (curr' <- scan_num source curr ;;
   scan_while fuel source (curr' + 1)
     (tokens ++ [mkToken NUM
                   (Some (substring curr (curr' + 1 - curr) source))
                   (curr' - curr + 1)])).
Proof.
  intros H. pose proof (digit_at_length _ _ H) as Hlen.
  apply Nat.ltb_lt in Hlen. cbn [scan_while]. rewrite Hlen.
  unfold digit_at in H. unfold char_at.
  destruct (String.get curr source) as [c|]; [|discriminate].
  cbn [bind]. rewrite H. reflexivity.
Qed.

(** ** Runs of the number scanner *)

(** With [k] digits after [curr] and no digit after them, the first loop
    stops on the last of them. *)
Lemma scan_num_int_run (source : string) : forall k fuel curr,
  k < fuel ->
  (forall j, j < k -> digit_at source (curr + 1 + j) = true) ->
  digit_at source (curr + 1 + k) = false ->
  scan_num_int fuel source curr = Ok (curr + k).
Proof.
  unfold digit_at.
  induction k as [|k IH]; intros [|fuel] curr Hf Hd Hend; try lia;
    rewrite scan_num_int_unfold.
  - rewrite Nat.add_0_r in *.
    destruct (String.get (curr + 1) source) as [c|]; [|reflexivity].
    now rewrite Hend.
  - specialize (Hd 0 ltac:(lia)) as H0. rewrite Nat.add_0_r in H0.
    destruct (String.get (curr + 1) source) as [c|]; [|discriminate].
    rewrite H0, (IH fuel (curr + 1)); [f_equal; lia|lia| |].
    + intros j Hj. specialize (Hd (S j) ltac:(lia)).
      now replace (curr + 1 + 1 + j) with (curr + 1 + S j) by lia.
    + now replace (curr + 1 + 1 + k) with (curr + 1 + S k) by lia.
Qed.

(** With [k] digits after [curr] and then a point, the second loop
    raises. *)
Lemma scan_num_frac_point (source : string) : forall k fuel curr,
  k < fuel ->
  (forall j, j < k -> digit_at source (curr + 1 + j) = true) ->
  point_at source (curr + 1 + k) = true ->
  scan_num_frac fuel source curr =
  Raise (ValueError "Number has two decimal points").
Proof.
  induction k as [|k IH]; intros [|fuel] curr Hf Hd Hend; try lia;
    rewrite scan_num_frac_unfold.
  - rewrite Nat.add_0_r in *. pose proof (point_not_digit _ _ Hend) as Hn.
    unfold point_at, digit_at in *.
    destruct (String.get (curr + 1) source) as [c|]; [|discriminate].
    now rewrite Hn, Hend.
  - specialize (Hd 0 ltac:(lia)) as H0. rewrite Nat.add_0_r in H0.
    unfold digit_at in H0.
    destruct (String.get (curr + 1) source) as [c|]; [|discriminate].
    rewrite H0. apply (IH fuel (curr + 1)); [lia| |].
    + intros j Hj. specialize (Hd (S j) ltac:(lia)).
      now replace (curr + 1 + 1 + j) with (curr + 1 + S j) by lia.
    + now replace (curr + 1 + 1 + k) with (curr + 1 + S k) by lia.
Qed.

(** A number with digits on [initial .. p-1], a point at [p], digits on
    [p+1 .. q-1] and a second point at [q] is refused. *)
Lemma scan_num_two_points (source : string) (initial p q : nat) :
  initial < p -> p < q ->
  (forall i, initial <= i < p -> digit_at source i = true) ->
  point_at source p = true ->
  (forall i, p < i < q -> digit_at source i = true) ->
  point_at source q = true ->
  scan_num source initial = Raise (ValueError "Number has two decimal points").
Proof.
  intros Hip Hpq Hd1 Hp Hd2 Hq.
  pose proof (point_at_length _ _ Hq) as Hlen.
  rewrite scan_num_unfold.
  rewrite (scan_num_int_run source (p - 1 - initial)).
  - cbn [bind]. replace (initial + (p - 1 - initial) + 1) with p by lia.
    pose proof Hp as Hp'. unfold point_at in Hp'.
    destruct (String.get p source) as [c|]; [|discriminate]. rewrite Hp'.
    apply (scan_num_frac_point source (q - 1 - p)).
    + unfold scan_fuel. lia.
    + intros j Hj. apply Hd2. lia.
    + now replace (p + 1 + (q - 1 - p)) with q by lia.
  - unfold scan_fuel. lia.
  - intros j Hj. apply Hd1. lia.
  - replace (initial + 1 + (p - 1 - initial)) with p by lia.
    now apply point_not_digit.
Qed.

(** ** What the number scanner returns *)

Lemma scan_num_int_Ok (source : string) : forall fuel curr curr',
  scan_num_int fuel source curr = Ok curr' ->
  curr <= curr' /\
  (forall i, curr < i <= curr' -> digit_at source i = true) /\
  digit_at source (curr' + 1) = false.
Proof.
  induction fuel as [|fuel IH]; intros curr curr' H; [discriminate|].
  rewrite scan_num_int_unfold in H. unfold digit_at.
  destruct (String.get (curr + 1) source) as [c|] eqn:E.
  - destruct (is_digit c) eqn:Ec.
    + apply IH in H as (Hle & Hd & Hend). split; [lia|split; [|exact Hend]].
      intros i Hi. destruct (Nat.eq_dec i (curr + 1)) as [->|Hne].
      * unfold digit_at. now rewrite E.
      * apply Hd. lia.
    + injection H as <-. rewrite E. split; [lia|split; [|exact Ec]].
      intros i Hi. lia.
  - injection H as <-. rewrite E. split; [lia|split; [|reflexivity]].
    intros i Hi. lia.
Qed.

Lemma scan_num_frac_Ok (source : string) : forall fuel curr curr',
  scan_num_frac fuel source curr = Ok curr' ->
  curr <= curr' /\
  (forall i, curr < i <= curr' -> digit_at source i = true) /\
  digit_at source (curr' + 1) = false /\ point_at source (curr' + 1) = false.
Proof.
  induction fuel as [|fuel IH]; intros curr curr' H; [discriminate|].
  rewrite scan_num_frac_unfold in H. unfold digit_at, point_at.
  destruct (String.get (curr + 1) source) as [c|] eqn:E.
  - destruct (is_digit c) eqn:Ec.
    + apply IH in H as (Hle & Hd & Hend). split; [lia|split; [|exact Hend]].
      intros i Hi. destruct (Nat.eq_dec i (curr + 1)) as [->|Hne].
      * unfold digit_at. now rewrite E.
      * apply Hd. lia.
    + destruct (Ascii.eqb c ".") eqn:Ep; [discriminate|].
      injection H as <-. rewrite E. split; [lia|split; [|split; [exact Ec|exact Ep]]].
      intros i Hi. lia.
  - injection H as <-. rewrite E. split; [lia|split; [|split; reflexivity]].
    intros i Hi. lia.
Qed.

(** The shape of a scanned number: digits up to [p], and then either
    nothing more, or a point and digits up to [curr']. *)
Lemma scan_num_Ok (source : string) (curr curr' : nat) :
  scan_num source curr = Ok curr' ->
  exists p,
    curr <= p /\
    (forall i, curr < i <= p -> digit_at source i = true) /\
    ((curr' = p /\ point_at source (p + 1) = false) \/
     (p + 1 <= curr' /\ point_at source (p + 1) = true /\
      (forall i, p + 1 < i <= curr' -> digit_at source i = true))).
Proof.
  rewrite scan_num_unfold. intros H.
  apply bind_Ok in H as [p [H1 H2]].
  apply scan_num_int_Ok in H1 as (Hle & Hd & Hend).
  exists p. split; [exact Hle|]. split; [exact Hd|].
  unfold point_at.
  destruct (String.get (p + 1) source) as [c|] eqn:E.
  - destruct (Ascii.eqb c ".") eqn:Ep.
    + right. apply scan_num_frac_Ok in H2 as (Hle2 & Hd2 & _).
      split; [exact Hle2|split; [reflexivity|exact Hd2]].
    + injection H2 as <-. now left.
  - injection H2 as <-. now left.
Qed.

Lemma scan_num_next (source : string) (curr curr' : nat) :
  scan_num source curr = Ok curr' ->
  digit_at source (curr' + 1) = false /\ point_at source (curr' + 1) = false.
Proof.
  rewrite scan_num_unfold. intros H.
  apply bind_Ok in H as [p [H1 H2]].
  apply scan_num_int_Ok in H1 as (_ & _ & Hend).
  unfold point_at, digit_at in *.
  destruct (String.get (p + 1) source) as [c|] eqn:E.
  - destruct (Ascii.eqb c ".") eqn:Ep.
    + apply scan_num_frac_Ok in H2 as (_ & _ & Hd & Hp). now split.
    + injection H2 as <-. rewrite E. now split.
  - injection H2 as <-. rewrite E. now split.
Qed.

Lemma scan_num_forward (source : string) (curr curr' : nat) :
  scan_num source curr = Ok curr' -> curr <= curr'.
Proof.
  intros H. apply scan_num_Ok in H as (p & Hp & _ & [[-> _]|[Hc _]]); lia.
Qed.

Lemma scan_num_int_Raise (source : string) : forall fuel curr e,
  scan_num_int fuel source curr <> Raise e.
Proof.
  induction fuel as [|fuel IH]; intros curr e; [discriminate|].
  rewrite scan_num_int_unfold.
  destruct (String.get (curr + 1) source) as [c|]; [|discriminate].
  destruct (is_digit c); [apply IH|discriminate].
Qed.

Lemma scan_num_frac_Raise (source : string) : forall fuel curr e,
  scan_num_frac fuel source curr = Raise e ->
  e = ValueError "Number has two decimal points".
Proof.
  induction fuel as [|fuel IH]; intros curr e; [discriminate|].
  rewrite scan_num_frac_unfold.
  destruct (String.get (curr + 1) source) as [c|]; [|discriminate].
  destruct (is_digit c); [apply IH|].
  destruct (Ascii.eqb c "."); [|discriminate]. now intros [= <-].
Qed.

(** The only exception of [scan_num]. *)
Lemma scan_num_Raise (source : string) (curr : nat) (e : exn) :
  scan_num source curr = Raise e ->
  e = ValueError "Number has two decimal points".
Proof.
  rewrite scan_num_unfold.
  destruct (scan_num_int (scan_fuel source) source curr) as [p| |] eqn:E;
    cbn [bind]; [| |discriminate].
  - destruct (String.get (p + 1) source) as [c|]; [|discriminate].
    destruct (Ascii.eqb c "."); [apply scan_num_frac_Raise|discriminate].
  - now apply scan_num_int_Raise in E.
Qed.

(** ** Termination of the scanner *)

Lemma scan_num_int_fuel (source : string) : forall fuel curr,
  String.length source - curr < fuel ->
  scan_num_int fuel source curr <> OutOfFuel.
Proof.
  induction fuel as [|fuel IH]; intros curr Hf; [lia|].
  rewrite scan_num_int_unfold.
  destruct (String.get (curr + 1) source) as [c|] eqn:E; [|discriminate].
  destruct (is_digit c); [|discriminate].
  assert (curr + 1 < String.length source).
  { destruct (Nat.lt_ge_cases (curr + 1) (String.length source)) as [H|H];
      [exact H|]. apply get_None in H. congruence. }
  apply IH. lia.
Qed.

Lemma scan_num_frac_fuel (source : string) : forall fuel curr,
  String.length source - curr < fuel ->
  scan_num_frac fuel source curr <> OutOfFuel.
Proof.
  induction fuel as [|fuel IH]; intros curr Hf; [lia|].
  rewrite scan_num_frac_unfold.
  destruct (String.get (curr + 1) source) as [c|] eqn:E; [|discriminate].
  destruct (is_digit c); [|destruct (Ascii.eqb c "."); discriminate].
  assert (curr + 1 < String.length source).
  { destruct (Nat.lt_ge_cases (curr + 1) (String.length source)) as [H|H];
      [exact H|]. apply get_None in H. congruence. }
  apply IH. lia.
Qed.

Lemma scan_num_fuel (source : string) (curr : nat) :
  scan_num source curr <> OutOfFuel.
Proof.
  rewrite scan_num_unfold.
  destruct (scan_num_int (scan_fuel source) source curr) as [p| |] eqn:E;
    cbn [bind]; [|discriminate|].
  - destruct (String.get (p + 1) source) as [c|]; [|discriminate].
    destruct (Ascii.eqb c "."); [|discriminate].
    apply scan_num_frac_fuel. unfold scan_fuel. lia.
  - exfalso. revert E. apply scan_num_int_fuel. unfold scan_fuel. lia.
Qed.

Lemma scan_while_fuel (source : string) : forall fuel curr tokens,
  String.length source - curr < fuel ->
  scan_while fuel source curr tokens <> OutOfFuel.
Proof.
  induction fuel as [|fuel IH]; intros curr tokens Hf; [lia|].
  cbn [scan_while].
  destruct (curr <? String.length source) eqn:Hlt; [|discriminate].
  apply Nat.ltb_lt in Hlt. unfold char_at.
  destruct (String.get curr source) as [c|]; cbn [bind]; [|discriminate].
  destruct (is_digit c).
  { destruct (scan_num source curr) as [curr'| |] eqn:E; cbn [bind].
    - apply scan_num_forward in E. apply IH. lia.
    - discriminate.
    - now apply scan_num_fuel in E. }
  repeat match goal with
         | |- (if ?b then _ else _) <> _ => destruct b; [apply IH; lia|]
         end.
  discriminate.
Qed.

Lemma scan_fuel_enough (source : string) : scan source <> OutOfFuel.
Proof. apply scan_while_fuel. unfold scan_fuel. lia. Qed.

(** ** A number with two points *)

(** A number scanned from before [p0] does not end inside or after a
    number with two points that starts at [p0]. *)
Lemma scan_num_before_two_points (source : string) (p0 p1 p2 curr curr' : nat) :
  p0 < p1 -> p1 < p2 ->
  (forall i, p0 <= i < p1 -> digit_at source i = true) ->
  point_at source p1 = true ->
  (forall i, p1 < i < p2 -> digit_at source i = true) ->
  point_at source p2 = true ->
  curr < p0 ->
  scan_num source curr = Ok curr' ->
  curr' + 1 <= p0.
Proof.
  intros H01 H12 D1 Pt1 D2 Pt2 Hcurr H.
  pose proof (point_not_digit _ _ Pt1) as N1.
  pose proof (point_not_digit _ _ Pt2) as N2.
  destruct (scan_num_next _ _ _ H) as [Nd Np].
  apply scan_num_Ok in H as (p & Hp & Hd & Hshape).
  destruct (Nat.le_gt_cases (curr' + 1) p0) as [Hle|Hgt]; [exact Hle|exfalso].
  assert (Hstop : forall i, digit_at source i = true \/ point_at source i = true ->
                            i <> curr' + 1).
  { intros i [Hi|Hi] ->; [|congruence]. congruence. }
  assert (Hin1 : forall i, p0 <= i <= p1 -> i <> curr' + 1).
  { intros i Hi. apply Hstop. destruct (Nat.eq_dec i p1) as [->|Hne];
      [now right|left; apply D1; lia]. }
  assert (Hin2 : forall i, p1 < i <= p2 -> i <> curr' + 1).
  { intros i Hi. apply Hstop. destruct (Nat.eq_dec i p2) as [->|Hne];
      [now right|left; apply D2; lia]. }
  destruct Hshape as [[-> _]|(Hc & Hpt & Hd2)].
  - destruct (Nat.le_gt_cases p1 p) as [Hge|Hlt].
    + rewrite (Hd p1) in N1 by lia. discriminate.
    + apply (Hin1 (p + 1)); lia.
  - destruct (Nat.le_gt_cases p1 p) as [Hge|Hlt].
    { rewrite (Hd p1) in N1 by lia. discriminate. }
    destruct (Nat.eq_dec (p + 1) p1) as [Heq|Hne].
    + destruct (Nat.le_gt_cases p2 curr') as [Hge2|Hlt2].
      * rewrite (Hd2 p2) in N2 by lia. discriminate.
      * apply (Hin2 (curr' + 1)); lia.
    + destruct (Nat.le_gt_cases p0 (p + 1)) as [Hge0|Hlt0].
      * rewrite (digit_not_point source (p + 1)) in Hpt by (apply D1; lia).
        discriminate.
      * destruct (Nat.le_gt_cases p1 curr') as [Hge1|Hlt1].
        -- rewrite (Hd2 p1) in N1 by lia. discriminate.
        -- apply (Hin1 (curr' + 1)); lia.
Qed.

(** Whatever comes before such a number, the scanning loop raises a
    [ValueError]: for a character it does not know before the number, or
    for the second point. *)
Lemma scan_while_two_points (source : string) (p0 p1 p2 : nat) :
  p0 < p1 -> p1 < p2 ->
  (forall i, p0 <= i < p1 -> digit_at source i = true) ->
  point_at source p1 = true ->
  (forall i, p1 < i < p2 -> digit_at source i = true) ->
  point_at source p2 = true ->
  forall fuel curr tokens,
    curr <= p0 -> String.length source - curr < fuel ->
    exists msg, scan_while fuel source curr tokens = Raise (ValueError msg).
Proof.
  intros H01 H12 D1 Pt1 D2 Pt2.
  pose proof (point_at_length _ _ Pt2) as Hlen.
  induction fuel as [|fuel IH]; intros curr tokens Hcurr Hf; [lia|].
  destruct (digit_at source curr) eqn:Hdig.
  - rewrite scan_while_digit by exact Hdig.
    destruct (scan_num source curr) as [curr'| |] eqn:E; cbn [bind].
    + destruct (Nat.eq_dec curr p0) as [->|Hne].
      * rewrite (scan_num_two_points source p0 p1 p2) in E by assumption.
        discriminate.
      * pose proof (scan_num_forward _ _ _ E) as Hfw.
        apply (scan_num_before_two_points source p0 p1 p2) in E; try assumption;
          [|lia].
        apply IH; lia.
    + apply scan_num_Raise in E. subst e. eauto.
    + now apply scan_num_fuel in E.
  - assert (Hlt : curr < p0).
    { destruct (Nat.eq_dec curr p0) as [->|Hne]; [|lia].
      rewrite D1 in Hdig by lia. discriminate. }
    cbn [scan_while].
    replace (curr <? String.length source) with true
      by (symmetry; apply Nat.ltb_lt; lia).
    unfold char_at. unfold digit_at in Hdig.
    destruct (String.get curr source) as [c|] eqn:E; cbn [bind].
    + rewrite Hdig.
      repeat match goal with
             | |- exists _, (if ?b then _ else _) = _ =>
                 destruct b; [apply IH; lia|]
             end.
      eauto.
    + apply get_None in E. lia.
Qed.

(** The positions of the digits and the points in [two_points]. *)
Lemma two_points_positions (pre d1 d2 rest : string) :
  d1 <> "" -> all_digits d1 = true -> all_digits d2 = true ->
  let source := two_points pre d1 d2 rest in
  let p0 := String.length pre in
  let p1 := String.length pre + String.length d1 in
  let p2 := String.length pre + (String.length d1 + (1 + String.length d2)) in
  p0 < p1 /\ p1 < p2 /\
  (forall i, p0 <= i < p1 -> digit_at source i = true) /\
  point_at source p1 = true /\
  (forall i, p1 < i < p2 -> digit_at source i = true) /\
  point_at source p2 = true.
Proof.
  intros Hne Hd1 Hd2.
  assert (Hlen : 0 < String.length d1) by (destruct d1; simpl; [congruence|lia]).
  cbv zeta. unfold two_points.
  split; [lia|]. split; [lia|]. split; [|split; [|split]].
  - intros i Hi. replace i with (String.length pre + (i - String.length pre)) by lia.
    rewrite digit_at_append_r, digit_at_append_l by lia.
    apply all_digits_at; [exact Hd1|lia].
  - rewrite point_at_append_r.
    replace (String.length d1) with (String.length d1 + 0) by lia.
    rewrite point_at_append_r. reflexivity.
  - intros i Hi.
    replace i with (String.length pre + (String.length d1 +
                      (1 + (i - String.length pre - String.length d1 - 1)))) by lia.
    rewrite digit_at_append_r, digit_at_append_r.
    change 1 with (String.length ".") at 1. rewrite digit_at_append_r.
    rewrite digit_at_append_l by lia. apply all_digits_at; [exact Hd2|lia].
  - rewrite point_at_append_r, point_at_append_r.
    change 1 with (String.length "."). rewrite point_at_append_r.
    replace (String.length d2) with (String.length d2 + 0) by lia.
    rewrite point_at_append_r. reflexivity.
Qed.

(** C7. ["1.2.3"] is refused by the scanner.  In general, when the
    digits [d1] of a number are followed by a point, digits [d2] and a
    second point, [scan_num] started on the number raises
    [ValueError("Number has two decimal points")], and so does the
    scanning loop of [main] when it stands at the number, whatever tokens
    it has collected; a text that starts with such a number is refused by
    [scan] with this error, and a text that holds such a number anywhere
    is refused by [scan] with a [ValueError]. *)
Theorem second_point_rejected :
  scan "1.2.3" = Raise (ValueError "Number has two decimal points") /\
  forall pre d1 d2 rest : string,
    d1 <> "" -> all_digits d1 = true -> all_digits d2 = true ->
    scan_num (two_points pre d1 d2 rest) (String.length pre) =
      Raise (ValueError "Number has two decimal points") /\
    (forall fuel tokens,
       scan_while (S fuel) (two_points pre d1 d2 rest) (String.length pre) tokens =
       Raise (ValueError "Number has two decimal points")) /\
    scan (two_points "" d1 d2 rest) =
      Raise (ValueError "Number has two decimal points") /\
    (exists msg, scan (two_points pre d1 d2 rest) = Raise (ValueError msg)).
Proof.
  split; [vm_compute; reflexivity|].
  assert (G : forall pre d1 d2 rest : string,
    d1 <> "" -> all_digits d1 = true -> all_digits d2 = true ->
    digit_at (two_points pre d1 d2 rest) (String.length pre) = true /\
    scan_num (two_points pre d1 d2 rest) (String.length pre) =
      Raise (ValueError "Number has two decimal points") /\
    (exists msg, scan (two_points pre d1 d2 rest) = Raise (ValueError msg))).
  { intros pre d1 d2 rest Hne Hd1 Hd2.
    destruct (two_points_positions pre d1 d2 rest Hne Hd1 Hd2)
      as (H01 & H12 & D1 & Pt1 & D2 & Pt2).
    split; [apply D1; lia|]. split.
    - exact (scan_num_two_points _ _ _ _ H01 H12 D1 Pt1 D2 Pt2).
    - apply (scan_while_two_points _ _ _ _ H01 H12 D1 Pt1 D2 Pt2);
        unfold scan_fuel; lia. }
  intros pre d1 d2 rest Hne Hd1 Hd2.
  destruct (G pre d1 d2 rest Hne Hd1 Hd2) as (Hdig & Hnum & Hany).
  destruct (G "" d1 d2 rest Hne Hd1 Hd2) as (Hdig0 & Hnum0 & _).
  split; [exact Hnum|]. split; [|split; [|exact Hany]].
  - intros fuel tokens. rewrite scan_while_digit by exact Hdig.
    rewrite Hnum. reflexivity.
  - unfold scan, scan_fuel. rewrite Nat.add_1_r.
    change 0 with (String.length "") at 1.
    rewrite scan_while_digit by exact Hdig0. rewrite Hnum0. reflexivity.
Qed.

Lemma second_point_rejected_witness :
  scan_num (two_points "8*" "12" "5" "0+1") 2 =
  Raise (ValueError "Number has two decimal points").
Proof.
  destruct second_point_rejected as [_ H].
  destruct (H "8*" "12" "5" "0+1") as [H1 _];
    [discriminate|reflexivity|reflexivity|exact H1].
Defined.

(** ** The text of a number token *)

(** Over [k] digits of the text, [read_digits] goes on. *)
Lemma read_digits_substring (source : string) : forall k a len acc n,
  (forall j, j < k -> digit_at source (a + j) = true) ->
  k <= len ->
  exists acc',
    read_digits (substring a len source) acc n =
    read_digits (substring (a + k) (len - k) source) acc' (n + k).
Proof.
  induction k as [|k IH]; intros a len acc n Hd Hle.
  - exists acc. now rewrite !Nat.add_0_r, Nat.sub_0_r.
  - destruct len as [|len]; [lia|].
    pose proof (Hd 0 ltac:(lia)) as H0. rewrite Nat.add_0_r in H0.
    unfold digit_at in H0.
    destruct (String.get a source) as [c|] eqn:E; [|discriminate].
    rewrite (substring_step source a len c E). cbn [read_digits]. rewrite H0.
    destruct (IH (S a) len (10 * acc + digit_val c)%Z (S n)) as [acc' Hacc'].
    + intros j Hj. specialize (Hd (S j) ltac:(lia)).
      now replace (S a + j) with (a + S j) by lia.
    + lia.
    + exists acc'. rewrite Hacc'.
      replace (S a + k) with (a + S k) by lia.
      replace (S n + k) with (n + S k) by lia.
      reflexivity.
Qed.

Lemma float_of_str_integer (s : string) (m : Z) (n : nat) :
  read_digits s 0%Z 0 = (m, n, "") -> n <> 0 ->
  float_of_str s = Ok (decimal_to_float m 0).
Proof.
  intros H Hn. unfold float_of_str. rewrite H.
  apply Nat.eqb_neq in Hn. now rewrite Hn.
Qed.

Lemma float_of_str_decimal (s rest : string) (c : ascii) (m m' : Z) (n k : nat) :
  read_digits s 0%Z 0 = (m, n, String c rest) ->
  Ascii.eqb c "." = true ->
  read_digits rest m 0 = (m', k, "") -> n + k <> 0 ->
  float_of_str s = Ok (decimal_to_float m' k).
Proof.
  intros H Hc H' Hn. unfold float_of_str. rewrite H, Hc, H'.
  apply Nat.eqb_neq in Hn. now rewrite Hn.
Qed.

(** [float] reads the text of every number the scanner takes. *)
Lemma scanned_number_literal (source : string) (initial curr' : nat) :
  digit_at source initial = true ->
  scan_num source initial = Ok curr' ->
  exists x, float_of_str (substring initial (curr' + 1 - initial) source) = Ok x.
Proof.
  intros H0 H. apply scan_num_Ok in H as (p & Hp & Hd & Hshape).
  assert (D : forall j, j < p + 1 - initial -> digit_at source (initial + j) = true).
  { intros j Hj. destruct j as [|j]; [now rewrite Nat.add_0_r|]. apply Hd. lia. }
  destruct Hshape as [[-> Hnp]|(Hc & Hpt & Hd2)].
  - destruct (read_digits_substring source (p + 1 - initial) initial
                (p + 1 - initial) 0%Z 0 D (Nat.le_refl _)) as [m Hm].
    rewrite Nat.sub_diag, substring_none in Hm. cbn [read_digits] in Hm.
    eexists. eapply float_of_str_integer; [exact Hm|lia].
  - destruct (read_digits_substring source (p + 1 - initial) initial
                (curr' + 1 - initial) 0%Z 0 D ltac:(lia)) as [m Hm].
    replace (initial + (p + 1 - initial)) with (p + 1) in Hm by lia.
    replace (curr' + 1 - initial - (p + 1 - initial)) with (S (curr' - (p + 1)))
      in Hm by lia.
    unfold point_at in Hpt.
    destruct (String.get (p + 1) source) as [c|] eqn:E; [|discriminate].
    rewrite (substring_step source (p + 1) _ c E) in Hm.
    cbn [read_digits] in Hm.
    assert (Hnd : is_digit c = false).
    { apply Ascii.eqb_eq in Hpt. now subst c. }
    rewrite Hnd in Hm.
    destruct (read_digits_substring source (curr' - (p + 1)) (S (p + 1))
                (curr' - (p + 1)) m 0) as [m' Hm'].
    { intros j Hj. apply Hd2. lia. }
    { lia. }
    rewrite Nat.sub_diag, substring_none in Hm'. cbn [read_digits] in Hm'.
    eexists. eapply float_of_str_decimal; [exact Hm|exact Hpt|exact Hm'|lia].
Qed.

Lemma literal_Token1 (ttype : TokenType) : ttype <> NUM -> literal (Token1 ttype).
Proof. intros H E. now elim H. Qed.

Lemma scan_while_literals (source : string) : forall fuel curr tokens tokens',
  Forall literal tokens ->
  scan_while fuel source curr tokens = Ok tokens' ->
  Forall literal tokens'.
Proof.
  induction fuel as [|fuel IH]; intros curr tokens tokens' Hall H; [discriminate|].
  cbn [scan_while] in H.
  destruct (curr <? String.length source); [|now injection H as <-].
  unfold char_at in H.
  destruct (String.get curr source) as [c|] eqn:E; cbn [bind] in H; [|discriminate].
  assert (Hone : forall ttype, ttype <> NUM ->
                 Forall literal (tokens ++ [Token1 ttype])).
  { intros ttype Hty. apply Forall_app. split; [exact Hall|].
    constructor; [now apply literal_Token1|constructor]. }
  destruct (is_digit c) eqn:Ec.
  { apply bind_Ok in H as [curr' [Hnum H]].
    apply IH in H; [exact H|].
    apply Forall_app. split; [exact Hall|]. constructor; [|constructor].
    intros _. cbn [get_value float_of_value].
    apply scanned_number_literal; [|exact Hnum].
    unfold digit_at. now rewrite E. }
  repeat match type of H with
         | (if ?b then _ else _) = _ =>
             destruct b; [apply IH in H; [exact H|try apply Hone; try discriminate; try exact Hall]|]
         end.
  discriminate.
Qed.

Lemma scan_literals (source : string) (tokens : list Token) :
  scan source = Ok tokens -> Forall literal tokens.
Proof. apply scan_while_literals. constructor. Qed.

(** ** One turn of each parser function

    The bounds test of a loop head and the indexing that follows it are
    one case analysis on [nth_error]. *)

Lemma parse_expression_unfold fuel tokens curr :
  parse_expression (S fuel) tokens curr =
  ('(left_, curr) <- parse_term fuel tokens curr ;;
   parse_expression_while fuel tokens left_ curr).
Proof. reflexivity. Qed.

Lemma parse_term_unfold fuel tokens curr :
  parse_term (S fuel) tokens curr =
  ('(left_, curr) <- parse_factor fuel tokens curr ;;
   parse_term_while fuel tokens left_ curr).
Proof. reflexivity. Qed.

Lemma parse_expression_while_unfold fuel tokens left_ curr :
  parse_expression_while (S fuel) tokens left_ curr =
  match nth_error tokens curr with
  | Some op =>
      if ttype_in (get_ttype op) [PLUS; MINUS] then
        '(right_, curr) <- parse_term fuel tokens (curr + 1) ;;
        parse_expression_while fuel tokens (Expr left_ op right_) curr
      else Ok (left_, curr)
  | None => Ok (left_, curr)
  end.
Proof.
  cbn [parse_expression_while]. rewrite item_nth.
  destruct (nth_error tokens curr) as [op|] eqn:E.
  - apply nth_error_in_range, Nat.ltb_lt in E. rewrite E. reflexivity.
  - apply nth_error_out_of_range in E. rewrite E. reflexivity.
Qed.

Lemma parse_term_while_unfold fuel tokens left_ curr :
  parse_term_while (S fuel) tokens left_ curr =
  match nth_error tokens curr with
  | Some op =>
      if ttype_in (get_ttype op) [ASTERISK; FSLASH] then
        '(right_, curr) <- parse_factor fuel tokens (curr + 1) ;;
        parse_term_while fuel tokens (Expr left_ op right_) curr
      else Ok (left_, curr)
  | None => Ok (left_, curr)
  end.
Proof.
  cbn [parse_term_while]. rewrite item_nth.
  destruct (nth_error tokens curr) as [op|] eqn:E.
  - apply nth_error_in_range, Nat.ltb_lt in E. rewrite E. reflexivity.
  - apply nth_error_out_of_range in E. rewrite E. reflexivity.
Qed.

Lemma consume_token_unfold tokens curr ttype msg :
  consume_token tokens curr ttype msg =
  match nth_error tokens curr with
  | Some tok =>
      if TokenType_eqb (get_ttype tok) ttype then Ok (curr + 1)
      else Raise (ValueError msg)
  | None => Raise (ValueError msg)
  end.
Proof.
  unfold consume_token. rewrite item_nth.
  destruct (nth_error tokens curr) as [tok|] eqn:E.
  - apply nth_error_in_range, Nat.ltb_lt in E. rewrite E. reflexivity.
  - apply nth_error_out_of_range in E. rewrite E. reflexivity.
Qed.

Lemma parse_factor_unfold fuel tokens curr :
  parse_factor (S fuel) tokens curr =
  match nth_error tokens curr with
  | Some token =>
      if TokenType_eqb (get_ttype token) NUM then Ok (Tok token, curr + 1)
      else if TokenType_eqb (get_ttype token) LBRACKET then
        '(expr, curr) <- parse_expression fuel tokens (curr + 1) ;;
        curr <- consume_token tokens curr RBRACKET "Expected closing bracket" ;;
        Ok (expr, curr)
      else Raise (ValueError "Unexpected token")
  | None => Raise IndexError
  end.
Proof.
  cbn [parse_factor]. rewrite item_nth.
  destruct (nth_error tokens curr); reflexivity.
Qed.

(** ** Calls and derivations *)

(** Every successful call has a derivation. *)
Lemma parser_sound (tokens : list Token) : forall fuel,
  (forall curr t curr', parse_expression fuel tokens curr = Ok (t, curr') ->
     expression_at tokens curr t curr') /\
  (forall left_ curr t curr',
     parse_expression_while fuel tokens left_ curr = Ok (t, curr') ->
     expression_loop tokens left_ curr t curr') /\
  (forall curr t curr', parse_term fuel tokens curr = Ok (t, curr') ->
     term_at tokens curr t curr') /\
  (forall left_ curr t curr',
     parse_term_while fuel tokens left_ curr = Ok (t, curr') ->
     term_loop tokens left_ curr t curr') /\
  (forall curr t curr', parse_factor fuel tokens curr = Ok (t, curr') ->
     factor_at tokens curr t curr').
Proof.
  induction fuel as [|fuel (IHe & IHew & IHt & IHtw & IHf)].
  { repeat split; intros; discriminate. }
  repeat split.
  - intros curr t curr' H. rewrite parse_expression_unfold in H.
    apply bind_Ok in H as [[l c1] [H1 H2]]. eauto with parser.
  - intros l curr t curr' H. rewrite parse_expression_while_unfold in H.
    destruct (nth_error tokens curr) as [op|] eqn:E.
    + destruct (ttype_in (get_ttype op) [PLUS; MINUS]) eqn:Eop.
      * apply bind_Ok in H as [[r c1] [H1 H2]]. eauto with parser.
      * injection H as <- <-. apply expression_loop_exit. congruence.
    + injection H as <- <-. apply expression_loop_exit. congruence.
  - intros curr t curr' H. rewrite parse_term_unfold in H.
    apply bind_Ok in H as [[l c1] [H1 H2]]. eauto with parser.
  - intros l curr t curr' H. rewrite parse_term_while_unfold in H.
    destruct (nth_error tokens curr) as [op|] eqn:E.
    + destruct (ttype_in (get_ttype op) [ASTERISK; FSLASH]) eqn:Eop.
      * apply bind_Ok in H as [[r c1] [H1 H2]]. eauto with parser.
      * injection H as <- <-. apply term_loop_exit. congruence.
    + injection H as <- <-. apply term_loop_exit. congruence.
  - intros curr t curr' H. rewrite parse_factor_unfold in H.
    destruct (nth_error tokens curr) as [token|] eqn:E; [|discriminate].
    destruct (TokenType_eqb (get_ttype token) NUM) eqn:En.
    + injection H as <- <-. apply TokenType_eqb_eq in En. eauto with parser.
    + destruct (TokenType_eqb (get_ttype token) LBRACKET) eqn:El; [|discriminate].
      apply bind_Ok in H as [[e c1] [H1 H2]].
      apply bind_Ok in H2 as [c2 [H2 H3]]. injection H3 as <- <-.
      rewrite consume_token_unfold in H2.
      destruct (nth_error tokens c1) as [closing|] eqn:Ec; [|discriminate].
      destruct (TokenType_eqb (get_ttype closing) RBRACKET) eqn:Er; [|discriminate].
      injection H2 as <-. apply TokenType_eqb_eq in El, Er. eauto with parser.
Qed.

(** A derivation fixes the result of every call that has fuel enough to
    end. *)
Lemma parser_complete (tokens : list Token) :
  (forall curr t curr', expression_at tokens curr t curr' ->
     forall fuel, parse_expression fuel tokens curr <> OutOfFuel ->
     parse_expression fuel tokens curr = Ok (t, curr')) /\
  (forall left_ curr t curr', expression_loop tokens left_ curr t curr' ->
     forall fuel, parse_expression_while fuel tokens left_ curr <> OutOfFuel ->
     parse_expression_while fuel tokens left_ curr = Ok (t, curr')) /\
  (forall curr t curr', term_at tokens curr t curr' ->
     forall fuel, parse_term fuel tokens curr <> OutOfFuel ->
     parse_term fuel tokens curr = Ok (t, curr')) /\
  (forall left_ curr t curr', term_loop tokens left_ curr t curr' ->
     forall fuel, parse_term_while fuel tokens left_ curr <> OutOfFuel ->
     parse_term_while fuel tokens left_ curr = Ok (t, curr')) /\
  (forall curr t curr', factor_at tokens curr t curr' ->
     forall fuel, parse_factor fuel tokens curr <> OutOfFuel ->
     parse_factor fuel tokens curr = Ok (t, curr')).
Proof.
  apply parser_derivation_ind.
  - intros curr l c1 t c2 _ IH1 _ IH2 [|fuel] Hf; [now elim Hf|].
    rewrite parse_expression_unfold in *.
    pose proof (IH1 fuel (bind_fuel _ _ Hf)) as E.
    rewrite E in Hf |- *. cbn [bind] in *. now apply IH2.
  - intros l curr Hexit [|fuel] Hf; [now elim Hf|].
    rewrite parse_expression_while_unfold.
    destruct (nth_error tokens curr) as [op|]; [|reflexivity].
    now rewrite (Hexit op eq_refl).
  - intros l curr op r c1 t c2 Hop Hin _ IH1 _ IH2 [|fuel] Hf; [now elim Hf|].
    rewrite parse_expression_while_unfold in *. rewrite Hop, Hin in Hf |- *.
    pose proof (IH1 fuel (bind_fuel _ _ Hf)) as E.
    rewrite E in Hf |- *. cbn [bind] in *. now apply IH2.
  - intros curr l c1 t c2 _ IH1 _ IH2 [|fuel] Hf; [now elim Hf|].
    rewrite parse_term_unfold in *.
    pose proof (IH1 fuel (bind_fuel _ _ Hf)) as E.
    rewrite E in Hf |- *. cbn [bind] in *. now apply IH2.
  - intros l curr Hexit [|fuel] Hf; [now elim Hf|].
    rewrite parse_term_while_unfold.
    destruct (nth_error tokens curr) as [op|]; [|reflexivity].
    now rewrite (Hexit op eq_refl).
  - intros l curr op r c1 t c2 Hop Hin _ IH1 _ IH2 [|fuel] Hf; [now elim Hf|].
    rewrite parse_term_while_unfold in *. rewrite Hop, Hin in Hf |- *.
    pose proof (IH1 fuel (bind_fuel _ _ Hf)) as E.
    rewrite E in Hf |- *. cbn [bind] in *. now apply IH2.
  - intros curr token Htok Hnum [|fuel] Hf; [now elim Hf|].
    rewrite parse_factor_unfold, Htok, Hnum. reflexivity.
  - intros curr token e c1 closing Htok Hl _ IH Hc Hr [|fuel] Hf; [now elim Hf|].
    rewrite parse_factor_unfold in *. rewrite Htok, Hl in Hf |- *.
    cbn [TokenType_eqb] in *.
    rewrite (IH fuel (bind_fuel _ _ Hf)). cbn [bind].
    rewrite consume_token_unfold, Hc, Hr. reflexivity.
Qed.

(** Every successful call moves [curr] forward and stays within the
    list; a loop never moves it back. *)
Lemma parser_progress (tokens : list Token) :
  (forall curr t curr', expression_at tokens curr t curr' ->
     curr < curr' <= List.length tokens) /\
  (forall left_ curr t curr', expression_loop tokens left_ curr t curr' ->
     curr <= curr' /\ (curr <= List.length tokens -> curr' <= List.length tokens)) /\
  (forall curr t curr', term_at tokens curr t curr' ->
     curr < curr' <= List.length tokens) /\
  (forall left_ curr t curr', term_loop tokens left_ curr t curr' ->
     curr <= curr' /\ (curr <= List.length tokens -> curr' <= List.length tokens)) /\
  (forall curr t curr', factor_at tokens curr t curr' ->
     curr < curr' <= List.length tokens).
Proof.
  apply parser_derivation_ind; intros;
    repeat match goal with
           | H : nth_error _ _ = Some _ |- _ => apply nth_error_in_range in H
           end; try lia.
Qed.

(** ** Termination of the parser *)

Lemma parser_fuel (tokens : list Token) : forall fuel,
  (forall curr, 3 * (List.length tokens - curr) + 3 <= fuel ->
     parse_expression fuel tokens curr <> OutOfFuel) /\
  (forall left_ curr, 3 * (List.length tokens - curr) + 2 <= fuel ->
     parse_expression_while fuel tokens left_ curr <> OutOfFuel) /\
  (forall curr, 3 * (List.length tokens - curr) + 2 <= fuel ->
     parse_term fuel tokens curr <> OutOfFuel) /\
  (forall left_ curr, 3 * (List.length tokens - curr) + 1 <= fuel ->
     parse_term_while fuel tokens left_ curr <> OutOfFuel) /\
  (forall curr, 3 * (List.length tokens - curr) + 1 <= fuel ->
     parse_factor fuel tokens curr <> OutOfFuel).
Proof.
  induction fuel as [|fuel (IHe & IHew & IHt & IHtw & IHf)].
  { repeat split; intros; lia. }
  destruct (parser_sound tokens fuel) as (Se & _ & St & _ & Sf).
  destruct (parser_progress tokens) as (Pe & _ & Pt & _ & Pf).
  repeat split.
  - intros curr Hle. rewrite parse_expression_unfold.
    destruct (parse_term fuel tokens curr) as [[l c1]| |] eqn:E; cbn [bind].
    + apply St, Pt in E. apply IHew. lia.
    + discriminate.
    + exfalso. revert E. apply IHt. lia.
  - intros l curr Hle. rewrite parse_expression_while_unfold.
    destruct (nth_error tokens curr) as [op|] eqn:Eop; [|discriminate].
    destruct (ttype_in (get_ttype op) [PLUS; MINUS]); [|discriminate].
    apply nth_error_in_range in Eop.
    destruct (parse_term fuel tokens (curr + 1)) as [[r c1]| |] eqn:E; cbn [bind].
    + apply St, Pt in E. apply IHew. lia.
    + discriminate.
    + exfalso. revert E. apply IHt. lia.
  - intros curr Hle. rewrite parse_term_unfold.
    destruct (parse_factor fuel tokens curr) as [[l c1]| |] eqn:E; cbn [bind].
    + apply Sf, Pf in E. apply IHtw. lia.
    + discriminate.
    + exfalso. revert E. apply IHf. lia.
  - intros l curr Hle. rewrite parse_term_while_unfold.
    destruct (nth_error tokens curr) as [op|] eqn:Eop; [|discriminate].
    destruct (ttype_in (get_ttype op) [ASTERISK; FSLASH]); [|discriminate].
    apply nth_error_in_range in Eop.
    destruct (parse_factor fuel tokens (curr + 1)) as [[r c1]| |] eqn:E; cbn [bind].
    + apply Sf, Pf in E. apply IHtw. lia.
    + discriminate.
    + exfalso. revert E. apply IHf. lia.
  - intros curr Hle. rewrite parse_factor_unfold.
    destruct (nth_error tokens curr) as [token|] eqn:Etok; [|discriminate].
    destruct (TokenType_eqb (get_ttype token) NUM); [discriminate|].
    destruct (TokenType_eqb (get_ttype token) LBRACKET); [|discriminate].
    apply nth_error_in_range in Etok.
    destruct (parse_expression fuel tokens (curr + 1)) as [[e c1]| |] eqn:E; cbn [bind].
    + rewrite consume_token_unfold.
      destruct (nth_error tokens c1) as [closing|]; [|discriminate].
      destruct (TokenType_eqb (get_ttype closing) RBRACKET); discriminate.
    + discriminate.
    + exfalso. revert E. apply IHe. lia.
Qed.

(** [parse_expression(tokens, 0)] ends with the fuel [parse] gives it. *)
Lemma parse_expression_fuel (tokens : list Token) :
  parse_expression (parse_fuel tokens) tokens 0 <> OutOfFuel.
Proof. apply parser_fuel. unfold parse_fuel. lia. Qed.

(** [parse_expression(tokens, 0)] returns [(t, curr)] exactly when there
    is a derivation of it. *)
Lemma parse_expression_iff (tokens : list Token) (t : ast) (curr : nat) :
  parse_expression (parse_fuel tokens) tokens 0 = Ok (t, curr) <->
  expression_at tokens 0 t curr.
Proof.
  split.
  - apply parser_sound.
  - intros H. apply parser_complete; [exact H|apply parse_expression_fuel].
Qed.

(** ** Fuel does not change a result *)

Lemma parser_mono (tokens : list Token) : forall fuel,
  (forall fuel' curr, fuel <= fuel' ->
     parse_expression fuel tokens curr <> OutOfFuel ->
     parse_expression fuel' tokens curr = parse_expression fuel tokens curr) /\
  (forall fuel' left_ curr, fuel <= fuel' ->
     parse_expression_while fuel tokens left_ curr <> OutOfFuel ->
     parse_expression_while fuel' tokens left_ curr =
     parse_expression_while fuel tokens left_ curr) /\
  (forall fuel' curr, fuel <= fuel' ->
     parse_term fuel tokens curr <> OutOfFuel ->
     parse_term fuel' tokens curr = parse_term fuel tokens curr) /\
  (forall fuel' left_ curr, fuel <= fuel' ->
     parse_term_while fuel tokens left_ curr <> OutOfFuel ->
     parse_term_while fuel' tokens left_ curr =
     parse_term_while fuel tokens left_ curr) /\
  (forall fuel' curr, fuel <= fuel' ->
     parse_factor fuel tokens curr <> OutOfFuel ->
     parse_factor fuel' tokens curr = parse_factor fuel tokens curr).
Proof.
  induction fuel as [|fuel (IHe & IHew & IHt & IHtw & IHf)].
  { repeat split; intros; exfalso; auto. }
  repeat split.
  - intros [|fuel'] curr Hle Hne; [lia|]. rewrite !parse_expression_unfold in *.
    apply bind_mono; [exact Hne|apply IHt; lia|].
    intros [l c1] _. apply IHew. lia.
  - intros [|fuel'] l curr Hle Hne; [lia|].
    rewrite !parse_expression_while_unfold in *.
    destruct (nth_error tokens curr) as [op|]; [|reflexivity].
    destruct (ttype_in (get_ttype op) [PLUS; MINUS]); [|reflexivity].
    apply bind_mono; [exact Hne|apply IHt; lia|].
    intros [r c1] _. apply IHew. lia.
  - intros [|fuel'] curr Hle Hne; [lia|]. rewrite !parse_term_unfold in *.
    apply bind_mono; [exact Hne|apply IHf; lia|].
    intros [l c1] _. apply IHtw. lia.
  - intros [|fuel'] l curr Hle Hne; [lia|].
    rewrite !parse_term_while_unfold in *.
    destruct (nth_error tokens curr) as [op|]; [|reflexivity].
    destruct (ttype_in (get_ttype op) [ASTERISK; FSLASH]); [|reflexivity].
    apply bind_mono; [exact Hne|apply IHf; lia|].
    intros [r c1] _. apply IHtw. lia.
  - intros [|fuel'] curr Hle Hne; [lia|]. rewrite !parse_factor_unfold in *.
    destruct (nth_error tokens curr) as [token|]; [|reflexivity].
    destruct (TokenType_eqb (get_ttype token) NUM); [reflexivity|].
    destruct (TokenType_eqb (get_ttype token) LBRACKET); [|reflexivity].
    apply bind_mono; [exact Hne|apply IHe; lia|].
    intros [e c1] _ _. reflexivity.
Qed.

(** ** Equations of the parser without fuel *)

Lemma parse_expression_result tokens fuel curr :
  3 * (List.length tokens - curr) + 3 <= fuel ->
  parse_expression fuel tokens curr = expression_result tokens curr.
Proof.
  intros H. apply parser_mono; [exact H|]. apply parser_fuel. lia.
Qed.

Lemma parse_expression_while_result tokens fuel left_ curr :
  3 * (List.length tokens - curr) + 2 <= fuel ->
  parse_expression_while fuel tokens left_ curr =
  expression_while_result tokens left_ curr.
Proof.
  intros H. apply parser_mono; [exact H|]. apply parser_fuel. lia.
Qed.

Lemma parse_term_result tokens fuel curr :
  3 * (List.length tokens - curr) + 2 <= fuel ->
  parse_term fuel tokens curr = term_result tokens curr.
Proof.
  intros H. apply parser_mono; [exact H|]. apply parser_fuel. lia.
Qed.

Lemma parse_term_while_result tokens fuel left_ curr :
  3 * (List.length tokens - curr) + 1 <= fuel ->
  parse_term_while fuel tokens left_ curr = term_while_result tokens left_ curr.
Proof.
  intros H. apply parser_mono; [exact H|]. apply parser_fuel. lia.
Qed.

Lemma parse_factor_result tokens fuel curr :
  3 * (List.length tokens - curr) + 1 <= fuel ->
  parse_factor fuel tokens curr = factor_result tokens curr.
Proof.
  intros H. apply parser_mono; [exact H|]. apply parser_fuel. lia.
Qed.

Lemma parse_fuel_result (tokens : list Token) :
  parse_expression (parse_fuel tokens) tokens 0 = expression_result tokens 0.
Proof. apply parse_expression_result. unfold parse_fuel. lia. Qed.

Lemma expression_result_eq tokens curr :
  expression_result tokens curr =
  ('(left_, curr) <- term_result tokens curr ;;
   expression_while_result tokens left_ curr).
Proof.
  unfold expression_result at 1.
  replace (3 * (List.length tokens - curr) + 3)
    with (S (3 * (List.length tokens - curr) + 2)) by lia.
  rewrite parse_expression_unfold. fold (term_result tokens curr).
  apply bind_ext. intros [l c1] H.
  apply parser_sound, parser_progress in H.
  apply parse_expression_while_result. lia.
Qed.

Lemma expression_while_result_eq tokens left_ curr :
  expression_while_result tokens left_ curr =
  match nth_error tokens curr with
  | Some op =>
      if ttype_in (get_ttype op) [PLUS; MINUS] then
        '(right_, curr) <- term_result tokens (curr + 1) ;;
        expression_while_result tokens (Expr left_ op right_) curr
      else Ok (left_, curr)
  | None => Ok (left_, curr)
  end.
Proof.
  unfold expression_while_result at 1.
  replace (3 * (List.length tokens - curr) + 2)
    with (S (3 * (List.length tokens - curr) + 1)) by lia.
  rewrite parse_expression_while_unfold.
  destruct (nth_error tokens curr) as [op|] eqn:Eop; [|reflexivity].
  destruct (ttype_in (get_ttype op) [PLUS; MINUS]); [|reflexivity].
  apply nth_error_in_range in Eop.
  rewrite (parse_term_result tokens _ (curr + 1)) by lia.
  apply bind_ext. intros [r c1] H.
  apply parser_sound, parser_progress in H.
  apply parse_expression_while_result. lia.
Qed.

Lemma term_result_eq tokens curr :
  term_result tokens curr =
  ('(left_, curr) <- factor_result tokens curr ;;
   term_while_result tokens left_ curr).
Proof.
  unfold term_result at 1.
  replace (3 * (List.length tokens - curr) + 2)
    with (S (3 * (List.length tokens - curr) + 1)) by lia.
  rewrite parse_term_unfold. fold (factor_result tokens curr).
  apply bind_ext. intros [l c1] H.
  apply parser_sound, parser_progress in H.
  apply parse_term_while_result. lia.
Qed.

Lemma term_while_result_eq tokens left_ curr :
  term_while_result tokens left_ curr =
  match nth_error tokens curr with
  | Some op =>
      if ttype_in (get_ttype op) [ASTERISK; FSLASH] then
        '(right_, curr) <- factor_result tokens (curr + 1) ;;
        term_while_result tokens (Expr left_ op right_) curr
      else Ok (left_, curr)
  | None => Ok (left_, curr)
  end.
Proof.
  unfold term_while_result at 1.
  replace (3 * (List.length tokens - curr) + 1)
    with (S (3 * (List.length tokens - curr))) by lia.
  rewrite parse_term_while_unfold.
  destruct (nth_error tokens curr) as [op|] eqn:Eop; [|reflexivity].
  destruct (ttype_in (get_ttype op) [ASTERISK; FSLASH]); [|reflexivity].
  apply nth_error_in_range in Eop.
  rewrite (parse_factor_result tokens _ (curr + 1)) by lia.
  apply bind_ext. intros [r c1] H.
  apply parser_sound, parser_progress in H.
  apply parse_term_while_result. lia.
Qed.

Lemma factor_result_eq tokens curr :
  factor_result tokens curr =
  match nth_error tokens curr with
  | Some token =>
      if TokenType_eqb (get_ttype token) NUM then Ok (Tok token, curr + 1)
      else if TokenType_eqb (get_ttype token) LBRACKET then
        '(expr, curr) <- expression_result tokens (curr + 1) ;;
        curr <- consume_token tokens curr RBRACKET "Expected closing bracket" ;;
        Ok (expr, curr)
      else Raise (ValueError "Unexpected token")
  | None => Raise IndexError
  end.
Proof.
  unfold factor_result at 1.
  replace (3 * (List.length tokens - curr) + 1)
    with (S (3 * (List.length tokens - curr))) by lia.
  rewrite parse_factor_unfold.
  destruct (nth_error tokens curr) as [token|] eqn:Etok; [|reflexivity].
  destruct (TokenType_eqb (get_ttype token) NUM); [reflexivity|].
  destruct (TokenType_eqb (get_ttype token) LBRACKET); [|reflexivity].
  apply nth_error_in_range in Etok.
  rewrite (parse_expression_result tokens _ (curr + 1)) by lia.
  reflexivity.
Qed.

(** Results and derivations agree. *)
Lemma expression_result_iff tokens curr t curr' :
  expression_result tokens curr = Ok (t, curr') <-> expression_at tokens curr t curr'.
Proof.
  split; [apply parser_sound|]. intros H.
  apply parser_complete; [exact H|]. apply parser_fuel. lia.
Qed.

Lemma term_result_iff tokens curr t curr' :
  term_result tokens curr = Ok (t, curr') <-> term_at tokens curr t curr'.
Proof.
  split; [apply parser_sound|]. intros H.
  apply parser_complete; [exact H|]. apply parser_fuel. lia.
Qed.

Lemma factor_result_iff tokens curr t curr' :
  factor_result tokens curr = Ok (t, curr') <-> factor_at tokens curr t curr'.
Proof.
  split; [apply parser_sound|]. intros H.
  apply parser_complete; [exact H|]. apply parser_fuel. lia.
Qed.

(** ** The outer bracket test *)

(** What [parse] returns comes from [parse_expression] on the tokens of
    [main], or on those between the outer brackets. *)
Lemma parse_Ok (tokens : list Token) (t : ast) :
  parse tokens = Ok t ->
  exists tokens' curr,
    (tokens' = tokens \/ tokens' = slice tokens 1 (List.length tokens - 1)) /\
    parse_expression (parse_fuel tokens') tokens' 0 = Ok (t, curr).
Proof.
  unfold parse. intros H.
  apply bind_Ok in H as [tokens' [H1 H2]].
  apply bind_Ok in H2 as [[a curr] [H2 H3]]. injection H3 as ->.
  exists tokens', curr. split; [|exact H2].
  unfold outer_brackets in H1. apply bind_Ok in H1 as [first [_ H1]].
  destruct (TokenType_eqb (get_ttype first) LBRACKET).
  - apply bind_Ok in H1 as [last [_ H1]].
    destruct (TokenType_eqb (get_ttype last) RBRACKET); [|discriminate].
    injection H1 as <-. now right.
  - injection H1 as <-. now left.
Qed.

(** A first bracket with a last token that is no closing bracket stops
    the parsing stage, whatever is between them. *)
Lemma outer_brackets_unclosed (tokens : list Token) (first last : Token) :
  nth_error tokens 0 = Some first -> get_ttype first = LBRACKET ->
  nth_error tokens (List.length tokens - 1) = Some last ->
  get_ttype last <> RBRACKET ->
  parse tokens = Raise (ValueError "Expected closing bracket").
Proof.
  intros Hf Hl Hlast Hr. unfold parse, outer_brackets, last_item, item.
  rewrite Hf. cbn [bind]. rewrite Hl. cbn [TokenType_eqb].
  rewrite Hlast. cbn [bind].
  apply TokenType_eqb_neq in Hr. rewrite Hr. reflexivity.
Qed.

(** Tokens between a first and a last bracket are parsed without
    them. *)
Lemma outer_brackets_wrapped (opening closing : Token) (ts : list Token) :
  get_ttype opening = LBRACKET -> get_ttype closing = RBRACKET ->
  outer_brackets (opening :: ts ++ [closing]) = Ok ts.
Proof.
  intros Hl Hr. unfold outer_brackets, last_item, item.
  cbn [nth_error bind]. rewrite Hl. cbn [TokenType_eqb].
  cbn [List.length]. rewrite length_app. cbn [List.length].
  replace (S (List.length ts + 1) - 1) with (S (List.length ts)) by lia.
  cbn [nth_error]. rewrite nth_error_middle. cbn [bind]. rewrite Hr.
  cbn [TokenType_eqb]. unfold slice.
  replace (S (List.length ts) - 1) with (List.length ts) by lia.
  cbn [skipn]. rewrite firstn_app, firstn_all, Nat.sub_diag. cbn [firstn].
  now rewrite app_nil_r.
Qed.

(** ** The trees of the parser *)

Lemma additive_arithmetic (ttype : TokenType) :
  ttype_in ttype [PLUS; MINUS] = true -> arithmetic ttype = true.
Proof. destruct ttype; simpl; intros H; try reflexivity; discriminate. Qed.

Lemma multiplicative_arithmetic (ttype : TokenType) :
  ttype_in ttype [ASTERISK; FSLASH] = true -> arithmetic ttype = true.
Proof. destruct ttype; simpl; intros H; try reflexivity; discriminate. Qed.

Lemma derivation_well_formed (tokens : list Token) :
  (forall curr t curr', expression_at tokens curr t curr' ->
     well_formed t = true /\ incl (tokens_of t) tokens) /\
  (forall left_ curr t curr', expression_loop tokens left_ curr t curr' ->
     well_formed left_ = true /\ incl (tokens_of left_) tokens ->
     well_formed t = true /\ incl (tokens_of t) tokens) /\
  (forall curr t curr', term_at tokens curr t curr' ->
     well_formed t = true /\ incl (tokens_of t) tokens) /\
  (forall left_ curr t curr', term_loop tokens left_ curr t curr' ->
     well_formed left_ = true /\ incl (tokens_of left_) tokens ->
     well_formed t = true /\ incl (tokens_of t) tokens) /\
  (forall curr t curr', factor_at tokens curr t curr' ->
     well_formed t = true /\ incl (tokens_of t) tokens).
Proof.
  apply parser_derivation_ind; intros; auto.
  - match goal with H : _ -> _ |- _ => apply H end.
    destruct H as [Hr Hri], H1 as [Hl Hli]. cbn [well_formed tokens_of].
    rewrite Hl, Hr, (additive_arithmetic _ e0). split; [reflexivity|].
    apply incl_app; [exact Hli|]. apply incl_cons; [|exact Hri].
    eapply nth_error_In; eassumption.
  - match goal with H : _ -> _ |- _ => apply H end.
    destruct H as [Hr Hri], H1 as [Hl Hli]. cbn [well_formed tokens_of].
    rewrite Hl, Hr, (multiplicative_arithmetic _ e0). split; [reflexivity|].
    apply incl_app; [exact Hli|]. apply incl_cons; [|exact Hri].
    eapply nth_error_In; eassumption.
  - cbn [well_formed tokens_of]. rewrite e0. split; [reflexivity|].
    apply incl_cons; [|apply incl_nil_l]. eapply nth_error_In; eassumption.
Qed.

Lemma parser_returns_derivation (t : ast) :
  parser_returns t ->
  exists tokens curr curr',
    expression_at tokens curr t curr' \/ term_at tokens curr t curr' \/
    factor_at tokens curr t curr'.
Proof.
  intros [tokens [H|(fuel & curr & curr' & [H|[H|H]])]].
  - apply parse_Ok in H as (tokens' & curr & _ & H).
    exists tokens', 0, curr. left. revert H. apply parser_sound.
  - exists tokens, curr, curr'. left. revert H. apply parser_sound.
  - exists tokens, curr, curr'. right. left. revert H. apply parser_sound.
  - exists tokens, curr, curr'. right. right. revert H. apply parser_sound.
Qed.

Lemma parser_returns_well_formed (t : ast) :
  parser_returns t -> well_formed t = true.
Proof.
  intros H. apply parser_returns_derivation in H as (tokens & c & c' & H).
  destruct (derivation_well_formed tokens) as (He & _ & Ht & _ & Hf).
  destruct H as [H|[H|H]]; [apply He in H|apply Ht in H|apply Hf in H]; apply H.
Qed.

(** In a well-formed tree the operators are arithmetic and the other
    tokens are numbers. *)
Lemma well_formed_tokens (x : ast) :
  well_formed x = true ->
  forall tok, In tok (tokens_of x) ->
  In (get_ttype tok) [NUM; PLUS; MINUS; ASTERISK; FSLASH].
Proof.
  induction x as [t|l IHl op r IHr]; cbn [well_formed tokens_of]; intros H tok Hin.
  - destruct Hin as [<-|[]]. apply TokenType_eqb_eq in H. rewrite H. now left.
  - apply andb_prop in H as [H Hr]. apply andb_prop in H as [Hl Hop].
    apply in_app_or in Hin as [Hin|[<-|Hin]]; auto.
    unfold arithmetic in Hop.
    destruct (get_ttype op); try discriminate Hop; simpl; intuition congruence.
Qed.

(** ** Errors of the evaluator *)

Lemma float_of_value_error (v : option string) (e : exn) :
  float_of_value v = Raise e ->
  e = TypeError \/ e = ValueError "could not convert string to float".
Proof.
  destruct v as [s|]; cbn [float_of_value]; [|intros [= <-]; now left].
  unfold float_of_str.
  destruct (read_digits s 0%Z 0) as [[m n] rest].
  destruct rest as [|c rest'].
  - destruct (n =? 0); intros [= <-]. now right.
  - destruct (Ascii.eqb c "."); [|intros [= <-]; now right].
    destruct (read_digits rest' m 0) as [[m' k] rest''].
    destruct rest''; [destruct (n + k =? 0)|]; intros [= <-]; now right.
Qed.

Lemma float_of_value_fuel (v : option string) : float_of_value v <> OutOfFuel.
Proof.
  destruct v as [s|]; cbn [float_of_value]; [|discriminate].
  unfold float_of_str.
  destruct (read_digits s 0%Z 0) as [[m n] rest].
  destruct rest as [|c rest'].
  - destruct (n =? 0); discriminate.
  - destruct (Ascii.eqb c "."); [|discriminate].
    destruct (read_digits rest' m 0) as [[m' k] rest''].
    destruct rest''; [destruct (n + k =? 0)|]; discriminate.
Qed.

(** On a well-formed tree the last case of [Expr.evaluate] is not
    taken. *)
Lemma apply_op_arithmetic (op : Token) (left_value right_value : float) :
  arithmetic (get_ttype op) = true ->
  (exists v, apply_op op left_value right_value = Ok v) \/
  (apply_op op left_value right_value = Raise ZeroDivisionError /\
   get_ttype op = FSLASH /\ PrimFloat.eqb right_value 0%float = true).
Proof.
  unfold apply_op.
  destruct (get_ttype op); simpl; intros H; try discriminate; eauto.
  destruct (PrimFloat.eqb right_value 0%float); eauto.
Qed.

Lemma well_formed_known_operators (x : ast) :
  well_formed x = true ->
  operand_value x <> Raise (ValueError "Unknown operator").
Proof.
  induction x as [t|l IHl op r IHr]; cbn [well_formed operand_value]; intros H.
  - intros E. apply float_of_value_error in E as [E|E]; discriminate.
  - apply andb_prop in H as [H Hr]. apply andb_prop in H as [Hl Hop].
    specialize (IHl Hl). specialize (IHr Hr).
    destruct (operand_value l) as [lv| |]; cbn [bind]; try congruence.
    destruct (operand_value r) as [rv| |]; cbn [bind]; try congruence.
    destruct (apply_op_arithmetic op lv rv Hop) as [[v E]|[E _]];
      rewrite E; discriminate.
Qed.

(** C9. In every tree returned by the parser, each operator of an
    [Expr] node is [PLUS], [MINUS], [ASTERISK] or [FSLASH] and each leaf
    is a [NUM] token, so no [DOT], [LBRACKET] or [RBRACKET] token is in
    the tree; and its evaluation does not raise "Unknown operator". *)
Theorem parser_tree_invariant (t : ast) :
  parser_returns t ->
  well_formed t = true /\
  (forall tok, In tok (tokens_of t) ->
     get_ttype tok <> DOT /\ get_ttype tok <> LBRACKET /\
     get_ttype tok <> RBRACKET) /\
  operand_value t <> Raise (ValueError "Unknown operator") /\
  evaluate t <> Raise (ValueError "Unknown operator").
Proof.
  intros H. pose proof (parser_returns_well_formed t H) as Hwf.
  split; [exact Hwf|]. split; [|split].
  - intros tok Hin. pose proof (well_formed_tokens t Hwf tok Hin) as Hty.
    simpl in Hty. repeat split; intros E; rewrite E in Hty;
      repeat (destruct Hty as [Hty|Hty]; try discriminate); exact Hty.
  - now apply well_formed_known_operators.
  - destruct t as [tok|l op r]; [discriminate|].
    now apply (well_formed_known_operators (Expr l op r)).
Qed.

Lemma parser_tree_invariant_witness :
  well_formed (Expr (Tok (num "2")) (Token1 PLUS)
                 (Expr (Tok (num "3")) (Token1 ASTERISK) (Tok (num "4")))) = true.
Proof.
  apply (parser_tree_invariant
           (Expr (Tok (num "2")) (Token1 PLUS)
              (Expr (Tok (num "3")) (Token1 ASTERISK) (Tok (num "4"))))).
  exists [num "2"; Token1 PLUS; num "3"; Token1 ASTERISK; num "4"].
  left. vm_compute. reflexivity.
Defined.

(** ** Exceptions in the parser *)

(** No call catches an exception: what a call raises, the run raises. *)
Lemma exception_propagates (tokens : list Token) (e : exn) :
  (forall curr, expression_called tokens curr ->
     expression_result tokens curr = Raise e ->
     expression_result tokens 0 = Raise e) /\
  (forall left_ curr, expression_while_reached tokens left_ curr ->
     expression_while_result tokens left_ curr = Raise e ->
     expression_result tokens 0 = Raise e) /\
  (forall curr, term_called tokens curr ->
     term_result tokens curr = Raise e ->
     expression_result tokens 0 = Raise e) /\
  (forall left_ curr, term_while_reached tokens left_ curr ->
     term_while_result tokens left_ curr = Raise e ->
     expression_result tokens 0 = Raise e) /\
  (forall curr, factor_called tokens curr ->
     factor_result tokens curr = Raise e ->
     expression_result tokens 0 = Raise e).
Proof.
  apply parser_calls_ind.
  - auto.
  - intros curr token _ IH Htok Hl E. apply IH.
    rewrite factor_result_eq, Htok, Hl, E. reflexivity.
  - intros curr l c1 _ IH Hterm E. apply IH.
    apply term_result_iff in Hterm.
    rewrite expression_result_eq, Hterm. exact E.
  - intros l curr op r c1 _ IH Hop Hin Hterm E. apply IH.
    apply term_result_iff in Hterm.
    rewrite expression_while_result_eq, Hop, Hin, Hterm. exact E.
  - intros curr _ IH E. apply IH.
    rewrite expression_result_eq, E. reflexivity.
  - intros l curr op _ IH Hop Hin E. apply IH.
    rewrite expression_while_result_eq, Hop, Hin, E. reflexivity.
  - intros curr l c1 _ IH Hfactor E. apply IH.
    apply factor_result_iff in Hfactor.
    rewrite term_result_eq, Hfactor. exact E.
  - intros l curr op r c1 _ IH Hop Hin Hfactor E. apply IH.
    apply factor_result_iff in Hfactor.
    rewrite term_while_result_eq, Hop, Hin, Hfactor. exact E.
  - intros curr _ IH E. apply IH.
    rewrite term_result_eq, E. reflexivity.
  - intros l curr op _ IH Hop Hin E. apply IH.
    rewrite term_while_result_eq, Hop, Hin, E. reflexivity.
Qed.







Example main_bare_dot : main "2*.5" = Raise (ValueError "Unexpected token").
Proof. vm_compute. reflexivity. Qed.

(** ** The parser and the grammar *)

Lemma additive_not_multiplicative (ttype : TokenType) :
  ttype_in ttype [PLUS; MINUS] = true -> ttype_in ttype [ASTERISK; FSLASH] = false.
Proof. destruct ttype; simpl; congruence. Qed.

(** The parser follows the grammar: where a part [ts] of the tokens is
    an expression (a term, a factor), the call at its first token takes
    exactly [ts], and the loop goes on from there. *)
Lemma grammar_parsed :
  (forall ts t, expression_of ts t ->
     forall before after t' curr',
       (forall op, nth_error (before ++ ts ++ after) (List.length before + List.length ts) = Some op ->
                   ttype_in (get_ttype op) [ASTERISK; FSLASH] = false) ->
       expression_loop (before ++ ts ++ after) t
         (List.length before + List.length ts) t' curr' ->
       expression_at (before ++ ts ++ after) (List.length before) t' curr') /\
  (forall ts t, term_of ts t ->
     forall before after t' curr',
       term_loop (before ++ ts ++ after) t
         (List.length before + List.length ts) t' curr' ->
       term_at (before ++ ts ++ after) (List.length before) t' curr') /\
  (forall ts t, factor_of ts t ->
     forall before after,
       factor_at (before ++ ts ++ after) (List.length before) t
         (List.length before + List.length ts)).
Proof.
  apply grammar_ind.
  - (* an expression that is a term *)
    intros ts t _ IH before after t' curr' Hnext Hloop.
    eapply expression_at_intro; [|exact Hloop].
    apply IH. now apply term_loop_exit.
  - (* expression, operator, term *)
    intros ts1 op ts2 l r _ IH1 Hop _ IH2 before after t' curr' Hnext Hloop.
    rewrite <- app_assoc in *. cbn [app] in *.
    rewrite length_app in *. cbn [List.length] in *.
    assert (Hat : nth_error (before ++ ts1 ++ op :: ts2 ++ after)
                    (List.length before + List.length ts1) = Some op).
    { rewrite nth_error_app2, Nat.add_comm, Nat.add_sub by lia.
      apply nth_error_middle. }
    assert (Hterm : term_at (before ++ ts1 ++ op :: ts2 ++ after)
                      (List.length before + List.length ts1 + 1) r
                      (List.length before + (List.length ts1 + S (List.length ts2)))).
    { specialize (IH2 (before ++ ts1 ++ [op]) after r
                      (List.length before + (List.length ts1 + S (List.length ts2)))).
      repeat (rewrite <- ?app_assoc in IH2; cbn [app] in IH2).
      rewrite !length_app in IH2. cbn [List.length] in IH2.
      replace (List.length before + (List.length ts1 + 1) + List.length ts2)
        with (List.length before + (List.length ts1 + S (List.length ts2)))
        in IH2 by lia.
      replace (List.length before + List.length ts1 + 1)
        with (List.length before + (List.length ts1 + 1)) by lia.
      apply IH2. apply term_loop_exit. exact Hnext. }
    apply IH1.
    + intros op'. rewrite Hat. intros [= <-]. now apply additive_not_multiplicative.
    + eapply expression_loop_turn; eassumption.
  - (* a term that is a factor *)
    intros ts t _ IH before after t' curr' Hloop.
    eapply term_at_intro; [apply IH|exact Hloop].
  - (* term, operator, factor *)
    intros ts1 op ts2 l r _ IH1 Hop _ IH2 before after t' curr' Hloop.
    rewrite <- app_assoc in *. cbn [app] in *.
    rewrite length_app in *. cbn [List.length] in *.
    assert (Hat : nth_error (before ++ ts1 ++ op :: ts2 ++ after)
                    (List.length before + List.length ts1) = Some op).
    { rewrite nth_error_app2, Nat.add_comm, Nat.add_sub by lia.
      apply nth_error_middle. }
    assert (Hfactor : factor_at (before ++ ts1 ++ op :: ts2 ++ after)
                      (List.length before + List.length ts1 + 1) r
                      (List.length before + (List.length ts1 + S (List.length ts2)))).
    { specialize (IH2 (before ++ ts1 ++ [op]) after).
      repeat (rewrite <- ?app_assoc in IH2; cbn [app] in IH2).
      rewrite !length_app in IH2. cbn [List.length] in IH2.
      replace (List.length before + (List.length ts1 + 1) + List.length ts2)
        with (List.length before + (List.length ts1 + S (List.length ts2)))
        in IH2 by lia.
      replace (List.length before + List.length ts1 + 1)
        with (List.length before + (List.length ts1 + 1)) by lia.
      exact IH2. }
    apply IH1. eapply term_loop_turn; eassumption.
  - (* a number *)
    intros tok Hnum before after. cbn [app List.length].
    apply factor_at_num; [apply nth_error_middle|exact Hnum].
  - (* a group *)
    intros opening ts closing t Hl _ IH Hr before after.
    cbn [app List.length]. rewrite length_app. cbn [List.length].
    replace (List.length before + S (List.length ts + 1))
      with (List.length before + 1 + List.length ts + 1) by lia.
    specialize (IH (before ++ [opening]) (closing :: after) t
                   (List.length before + 1 + List.length ts)).
    repeat (rewrite <- ?app_assoc in IH; cbn [app] in IH).
    rewrite !length_app in IH. cbn [List.length] in IH.
    rewrite <- app_assoc. cbn [app].
    assert (Hc : nth_error (before ++ opening :: ts ++ closing :: after)
                   (List.length before + 1 + List.length ts) = Some closing).
    { replace (before ++ opening :: ts ++ closing :: after)
        with ((before ++ opening :: ts) ++ closing :: after)
        by (rewrite <- app_assoc; reflexivity).
      replace (List.length before + 1 + List.length ts)
        with (List.length (before ++ opening :: ts))
        by (rewrite length_app; cbn [List.length]; lia).
      apply nth_error_middle. }
    eapply factor_at_bracket; [apply nth_error_middle|exact Hl| |exact Hc|exact Hr].
    apply IH.
    + intros op. rewrite Hc. intros [= <-]. now rewrite Hr.
    + apply expression_loop_exit. intros op. rewrite Hc. intros [= <-].
      now rewrite Hr.
Qed.

Lemma expression_of_parsed (ts after : list Token) (t : ast) :
  expression_of ts t ->
  (forall op, hd_error after = Some op -> arithmetic (get_ttype op) = false) ->
  expression_at (ts ++ after) 0 t (List.length ts).
Proof.
  intros H Hnext.
  assert (Hat : forall op, nth_error (ts ++ after) (List.length ts) = Some op ->
                           arithmetic (get_ttype op) = false).
  { intros op. rewrite nth_error_app2, Nat.sub_diag by lia.
    destruct after as [|a after]; [discriminate|]. intros [= <-].
    now apply Hnext. }
  destruct grammar_parsed as [G _].
  apply (G ts t H [] after t (List.length ts)).
  - intros op Hop. apply Hat in Hop. unfold arithmetic in Hop.
    destruct (get_ttype op); simpl in *; congruence.
  - apply expression_loop_exit. intros op Hop. apply Hat in Hop.
    unfold arithmetic in Hop. destruct (get_ttype op); simpl in *; congruence.
Qed.

(** A token list that is an expression is parsed to its tree. *)
Lemma expression_of_parse_expression (ts : list Token) (t : ast) :
  expression_of ts t ->
  parse_expression (parse_fuel ts) ts 0 = Ok (t, List.length ts).
Proof.
  intros H. apply parse_expression_iff.
  pose proof (expression_of_parsed ts [] t H) as E. rewrite app_nil_r in E.
  apply E. discriminate.
Qed.

Lemma slice_split {A : Type} (l : list A) (a b c : nat) :
  a <= b -> b <= c ->
  slice l a c = slice l a b ++ slice l b c.
Proof.
  intros Hab Hbc. unfold slice.
  replace (c - a) with ((b - a) + (c - b)) by lia.
  rewrite <- (firstn_skipn (b - a) (firstn (b - a + (c - b)) (skipn a l))).
  rewrite firstn_firstn. replace (Nat.min (b - a) (b - a + (c - b))) with (b - a) by lia.
  f_equal. rewrite skipn_firstn_comm.
  replace (b - a + (c - b) - (b - a)) with (c - b) by lia.
  rewrite skipn_skipn. now replace (b - a + a) with b by lia.
Qed.

Lemma slice_one {A : Type} (l : list A) (i : nat) (x : A) :
  nth_error l i = Some x -> slice l i (i + 1) = [x].
Proof.
  intros H. unfold slice. replace (i + 1 - i) with 1 by lia.
  rewrite <- (firstn_skipn i l) in H.
  assert (Hlen : List.length (firstn i l) = i).
  { apply firstn_length_le. apply nth_error_in_range in H.
    rewrite firstn_skipn in H. lia. }
  rewrite nth_error_app2, Hlen, Nat.sub_diag in H by lia.
  destruct (skipn i l) as [|y rest]; [discriminate|].
  cbn in H. injection H as ->. reflexivity.
Qed.

Lemma slice_all {A : Type} (l : list A) : slice l 0 (List.length l) = l.
Proof. unfold slice. rewrite Nat.sub_0_r. cbn [skipn]. apply firstn_all. Qed.

(** What a successful call passes over is an expression (a term, a
    factor) of the grammar, and the tree returned is its tree. *)
Lemma derivation_grammar (tokens : list Token) :
  (forall curr t curr', expression_at tokens curr t curr' ->
     expression_of (slice tokens curr curr') t) /\
  (forall left_ curr t curr', expression_loop tokens left_ curr t curr' ->
     forall start, start <= curr ->
       expression_of (slice tokens start curr) left_ ->
       expression_of (slice tokens start curr') t) /\
  (forall curr t curr', term_at tokens curr t curr' ->
     term_of (slice tokens curr curr') t) /\
  (forall left_ curr t curr', term_loop tokens left_ curr t curr' ->
     forall start, start <= curr ->
       term_of (slice tokens start curr) left_ ->
       term_of (slice tokens start curr') t) /\
  (forall curr t curr', factor_at tokens curr t curr' ->
     factor_of (slice tokens curr curr') t).
Proof.
  destruct (parser_progress tokens) as (Pe & Pel & Pt & Ptl & Pf).
  apply parser_derivation_ind.
  - intros curr l c1 t c2 Hterm IH1 _ IH2.
    apply IH2; [apply Pt in Hterm; lia|]. now apply expression_of_term.
  - intros l curr _ start _ H. exact H.
  - intros l curr op r c1 t c2 Hop Hin Hterm IH1 _ IH2 start Hstart H.
    pose proof (Pt _ _ _ Hterm) as Hp.
    apply IH2; [lia|].
    rewrite (slice_split tokens start curr c1) by lia.
    rewrite (slice_split tokens curr (curr + 1) c1) by lia.
    rewrite (slice_one tokens curr op Hop). cbn [app].
    now apply expression_of_more.
  - intros curr l c1 t c2 Hfactor IH1 _ IH2.
    apply IH2; [apply Pf in Hfactor; lia|]. now apply term_of_factor.
  - intros l curr _ start _ H. exact H.
  - intros l curr op r c1 t c2 Hop Hin Hfactor IH1 _ IH2 start Hstart H.
    pose proof (Pf _ _ _ Hfactor) as Hp.
    apply IH2; [lia|].
    rewrite (slice_split tokens start curr c1) by lia.
    rewrite (slice_split tokens curr (curr + 1) c1) by lia.
    rewrite (slice_one tokens curr op Hop). cbn [app].
    now apply term_of_more.
  - intros curr token Htok Hnum.
    rewrite (slice_one tokens curr token Htok). now apply factor_of_number.
  - intros curr token e c1 closing Htok Hl Hexpr IH Hc Hr.
    pose proof (Pe _ _ _ Hexpr) as Hp.
    rewrite (slice_split tokens curr (curr + 1) (c1 + 1)) by lia.
    rewrite (slice_split tokens (curr + 1) c1 (c1 + 1)) by lia.
    rewrite (slice_one tokens curr token Htok), (slice_one tokens c1 closing Hc).
    cbn [app]. now apply factor_of_group.
Qed.

(** X8. [parse_expression(tokens, 0)] takes all the tokens and returns [t]
    exactly when the tokens are an expression of the grammar with tree
    [t]. *)
Theorem parse_expression_grammar (tokens : list Token) (t : ast) :
  parse_expression (parse_fuel tokens) tokens 0 = Ok (t, List.length tokens) <->
  expression_of tokens t.
Proof.
  split.
  - intros H. apply parse_expression_iff, derivation_grammar in H.
    now rewrite slice_all in H.
  - apply expression_of_parse_expression.
Qed.

(** ** Tokens after the expression *)

(** C10, as stated, fails: [1 + 2] is an expression and [*] is neither
    [PLUS] nor [MINUS], yet on [1 + 2 *] the call
    [parse_expression(tokens, 0)] raises [IndexError], and so does the
    parsing stage.  So it is not true that every expression followed by
    a token other than [PLUS] and [MINUS] is parsed to its tree. *)
Lemma trailing_star_raises :
  expression_of [num "1"; Token1 PLUS; num "2"]
    (Expr (Tok (num "1")) (Token1 PLUS) (Tok (num "2"))) /\
  ttype_in (get_ttype (Token1 ASTERISK)) [PLUS; MINUS] = false /\
  scan "1+2*" = Ok ([num "1"; Token1 PLUS; num "2"] ++ [Token1 ASTERISK]) /\
  parse_expression
    (parse_fuel ([num "1"; Token1 PLUS; num "2"] ++ [Token1 ASTERISK]))
    ([num "1"; Token1 PLUS; num "2"] ++ [Token1 ASTERISK]) 0 = Raise IndexError /\
  parse ([num "1"; Token1 PLUS; num "2"] ++ [Token1 ASTERISK]) = Raise IndexError /\
  ~ (forall ts t extra rest,
       expression_of ts t ->
       ttype_in (get_ttype extra) [PLUS; MINUS] = false ->
       parse_expression (parse_fuel (ts ++ extra :: rest)) (ts ++ extra :: rest) 0 =
       Ok (t, List.length ts)).
Proof.
  assert (G : expression_of [num "1"; Token1 PLUS; num "2"]
                (Expr (Tok (num "1")) (Token1 PLUS) (Tok (num "2")))).
  { apply (expression_of_more [num "1"] (Token1 PLUS) [num "2"]);
      [apply expression_of_term|reflexivity|];
      apply term_of_factor, factor_of_number; reflexivity. }
  split; [exact G|]. repeat split; try (vm_compute; reflexivity).
  intros H. specialize (H _ _ (Token1 ASTERISK) [] G eq_refl).
  vm_compute in H. discriminate H.
Qed.

(** C10, amended. When the tokens begin with an expression [ts] of tree
    [t] and go on with a token that is none of [PLUS], [MINUS],
    [ASTERISK], [FSLASH], the call [parse_expression(tokens, 0)] returns
    [t] and the index of that token: the tokens from there on are not
    read.  When, in addition, the first token is not [LBRACKET], the
    parsing stage of [main] returns [t]. *)
Theorem trailing_tokens_ignored (ts : list Token) (t : ast) (extra : Token)
    (rest : list Token) :
  expression_of ts t ->
  arithmetic (get_ttype extra) = false ->
  parse_expression (parse_fuel (ts ++ extra :: rest)) (ts ++ extra :: rest) 0 =
    Ok (t, List.length ts) /\
  (hd_error (map get_ttype ts) <> Some LBRACKET ->
   parse (ts ++ extra :: rest) = Ok t).
Proof.
  intros Hts Hextra.
  assert (E : parse_expression (parse_fuel (ts ++ extra :: rest))
                (ts ++ extra :: rest) 0 = Ok (t, List.length ts)).
  { apply parse_expression_iff. apply expression_of_parsed; [exact Hts|].
    intros op [= <-]. exact Hextra. }
  split; [exact E|].
  intros Hfirst. unfold parse.
  assert (O : outer_brackets (ts ++ extra :: rest) = Ok (ts ++ extra :: rest)).
  { unfold outer_brackets, item. destruct ts as [|first ts']; cbn [app nth_error bind].
    - apply parser_sound, parser_progress in E. cbn [List.length] in E. lia.
    - destruct (TokenType_eqb (get_ttype first) LBRACKET) eqn:El; [|reflexivity].
      apply TokenType_eqb_eq in El. cbn in Hfirst. congruence. }
  rewrite O. cbn [bind]. rewrite E. reflexivity.
Qed.

Lemma trailing_tokens_ignored_witness :
  parse_expression
    (parse_fuel ([num "1"; Token1 PLUS; num "2"] ++ Token1 RBRACKET :: [num "3"]))
    ([num "1"; Token1 PLUS; num "2"] ++ Token1 RBRACKET :: [num "3"]) 0 =
  Ok (Expr (Tok (num "1")) (Token1 PLUS) (Tok (num "2")), 3).
Proof.
  apply (trailing_tokens_ignored [num "1"; Token1 PLUS; num "2"]
           (Expr (Tok (num "1")) (Token1 PLUS) (Tok (num "2")))
           (Token1 RBRACKET) [num "3"]).
  - apply (expression_of_more [num "1"] (Token1 PLUS) [num "2"]);
      [apply expression_of_term|reflexivity|];
      apply term_of_factor, factor_of_number; reflexivity.
  - reflexivity.
Defined.

Example scan_trailing :
  scan "1+2)3" = Ok ([num "1"; Token1 PLUS; num "2"] ++ Token1 RBRACKET :: [num "3"]).
Proof. vm_compute. reflexivity. Qed.

(** ** Evaluation of the trees of the parser *)

Lemma apply_op_cases (op : Token) (left_value right_value : float) :
  arithmetic (get_ttype op) = true ->
  (exists v, apply_op op left_value right_value = Ok v /\
             TokenType_eqb (get_ttype op) FSLASH &&
             PrimFloat.eqb right_value 0%float = false) \/
  (apply_op op left_value right_value = Raise ZeroDivisionError /\
   TokenType_eqb (get_ttype op) FSLASH &&
   PrimFloat.eqb right_value 0%float = true).
Proof.
  unfold apply_op.
  destruct (get_ttype op); cbn; intros H; try discriminate; eauto.
  destruct (PrimFloat.eqb right_value 0%float); eauto.
Qed.

(** A well-formed tree over literals is evaluated to a number, unless a
    division by zero is met, and then [ZeroDivisionError] is raised. *)
Lemma operand_value_cases (x : ast) :
  well_formed x = true -> Forall literal (tokens_of x) ->
  (exists v, operand_value x = Ok v /\ zero_division x = false) \/
  (operand_value x = Raise ZeroDivisionError /\ zero_division x = true).
Proof.
  induction x as [t|l IHl op r IHr]; cbn [well_formed tokens_of]; intros Hwf Hlit.
  - left. apply TokenType_eqb_eq in Hwf.
    apply Forall_inv in Hlit. destruct (Hlit Hwf) as [v Hv].
    exists v. split; [exact Hv|reflexivity].
  - apply andb_prop in Hwf as [Hwf Hr]. apply andb_prop in Hwf as [Hl Hop].
    apply Forall_app in Hlit as [Hll Hlr]. apply Forall_inv_tail in Hlr.
    cbn [operand_value zero_division].
    destruct (IHl Hl Hll) as [(lv & El & Zl)|(El & Zl)]; rewrite El, Zl; cbn [bind orb];
      [|now right].
    destruct (IHr Hr Hlr) as [(rv & Er & Zr)|(Er & Zr)]; rewrite Er, Zr; cbn [bind orb];
      [|now right].
    destruct (apply_op_cases op lv rv Hop) as [(v & Ev & Z)|(Ev & Z)]; rewrite Ev, Z.
    + left. exists v. now split.
    + now right.
Qed.

(** In this model, which does not print the tree and has no recursion
    limit: when scanning succeeds and the parser returns an [Expr] object, the
    pipeline returns a number, unless a division by zero is met in the
    tree, and then it raises [ZeroDivisionError]. *)
Theorem main_on_Expr (source : string) (tokens : list Token)
    (l : ast) (op : Token) (r : ast) :
  scan source = Ok tokens ->
  parse tokens = Ok (Expr l op r) ->
  (exists v, main source = Ok v /\ zero_division (Expr l op r) = false) \/
  (main source = Raise ZeroDivisionError /\ zero_division (Expr l op r) = true).
Proof.
  intros Hscan Hparse. unfold main. rewrite Hscan. cbn [bind]. rewrite Hparse.
  cbn [bind evaluate]. change (Expr_evaluate l op r) with (operand_value (Expr l op r)).
  apply operand_value_cases.
  - apply parser_returns_well_formed. exists tokens. now left.
  - apply scan_literals in Hscan. rewrite Forall_forall in *.
    intros tok Hin. apply Hscan.
    apply parse_Ok in Hparse as (tokens' & curr & Htok & Hparse).
    apply parser_sound, derivation_well_formed in Hparse as [_ Hincl].
    apply Hincl in Hin. destruct Htok as [->| ->]; [exact Hin|].
    revert Hin. apply incl_slice.
Qed.

Lemma operand_value_fuel (x : ast) : operand_value x <> OutOfFuel.
Proof.
  induction x as [t|l IHl op r IHr]; cbn [operand_value].
  - apply float_of_value_fuel.
  - destruct (operand_value l); cbn [bind]; try congruence.
    destruct (operand_value r); cbn [bind]; try congruence.
    unfold apply_op. destruct (get_ttype op); try discriminate.
    destruct (PrimFloat.eqb _ _); discriminate.
Qed.

(** X19. The pipeline ends on every line of input. *)
Theorem main_ends (source : string) : main source <> OutOfFuel.
Proof.
  unfold main.
  destruct (scan source) as [tokens| |] eqn:Es; cbn [bind]; [|discriminate|].
  - unfold parse.
    destruct (outer_brackets tokens) as [tokens'| |] eqn:Eo; cbn [bind]; [|discriminate|].
    + destruct (parse_expression (parse_fuel tokens') tokens' 0) as [[a c]| |] eqn:Ep;
        cbn [bind]; [|discriminate|].
      * destruct a as [t|l op r]; [discriminate|]. apply (operand_value_fuel (Expr l op r)).
      * now apply parse_expression_fuel in Ep.
    + unfold outer_brackets, last_item, item in Eo.
      destruct (nth_error tokens 0) as [first|]; cbn [bind] in Eo; [|discriminate].
      destruct (TokenType_eqb (get_ttype first) LBRACKET); [|discriminate].
      destruct (nth_error tokens (List.length tokens - 1)) as [last|];
        cbn [bind] in Eo; [|discriminate].
      destruct (TokenType_eqb (get_ttype last) RBRACKET); discriminate.
  - now apply scan_fuel_enough in Es.
Qed.

(** ** Runs of the pipeline *)

Example scan_grouping :
  scan "(2+3)*4" =
  Ok [Token1 LBRACKET; num "2"; Token1 PLUS; num "3"; Token1 RBRACKET;
      Token1 ASTERISK; num "4"].
Proof. vm_compute. reflexivity. Qed.

Example scan_decimals : scan "1.5+2.25" = Ok [num "1.5"; Token1 PLUS; num "2.25"].
Proof. vm_compute. reflexivity. Qed.

Example main_decimals : main "1.5+2.25" = Ok 3.75%float.
Proof. vm_compute. reflexivity. Qed.

Example main_unbalanced : main "(1+2" = Raise (ValueError "Expected closing bracket").
Proof. vm_compute. reflexivity. Qed.

Example scan_unknown_character : scan "1+@" = Raise (ValueError "").
Proof. vm_compute. reflexivity. Qed.

Example main_inner_group : main "4*(2+3)" = Ok 20%float.
Proof. vm_compute. reflexivity. Qed.

(** A product of two groups is taken for one group. *)
Example main_two_groups : main "(1+2)*(3+4)" = Ok 3%float.
Proof. vm_compute. reflexivity. Qed.

Example main_bracketed_literal : main "(5)" = Raise AttributeError.
Proof. vm_compute. reflexivity. Qed.

(** A literal above the largest binary64 number is read as infinity. *)
Example main_overflow :
  main (String.concat "" (repeat "10" 155) ++ "*1") = Ok infinity.
Proof. vm_compute. reflexivity. Qed.

(** C1. The grouping example is not computed: on ["(2+3)*4"] scanning
    succeeds, and the parsing stage stops with "Expected closing bracket"
    because the first token is a bracket and the last one is not; no
    value (20.0 or other) is returned.  The same product written with the
    group on the right is evaluated to 20.0. *)
Theorem grouping_rejected :
  scan "(2+3)*4" =
    Ok [Token1 LBRACKET; num "2"; Token1 PLUS; num "3"; Token1 RBRACKET;
        Token1 ASTERISK; num "4"] /\
  (tokens <- scan "(2+3)*4" ;; parse tokens) =
    Raise (ValueError "Expected closing bracket") /\
  main "(2+3)*4" = Raise (ValueError "Expected closing bracket") /\
  main "4*(2+3)" = Ok 20%float.
Proof. repeat split; vm_compute; reflexivity. Qed.

(** C2. A single number literal is not evaluated: on ["5"] scanning and
    parsing succeed, the parser returns the number token itself, and the
    call of [evaluate] on it raises [AttributeError]. *)
Theorem single_literal_raises :
  scan "5" = Ok [num "5"] /\
  parse [num "5"] = Ok (Tok (num "5")) /\
  main "5" = Raise AttributeError.
Proof. repeat split; vm_compute; reflexivity. Qed.

(** C3. The tree the parser returns for ["7"] is evaluated with an
    error although no division is performed in it. *)
Theorem literal_tree_raises_without_division :
  (tokens <- scan "7" ;; parse tokens) = Ok (Tok (num "7")) /\
  evaluate (Tok (num "7")) = Raise AttributeError /\
  zero_division (Tok (num "7")) = false.
Proof. repeat split; vm_compute; reflexivity. Qed.

(** C4. Precedence: ["2+3*4"] is evaluated to 14.0, which is not 20.0. *)
Theorem precedence :
  main "2+3*4" = Ok 14%float /\ main "2+3*4" <> Ok 20%float.
Proof.
  assert (H : main "2+3*4" = Ok 14%float) by (vm_compute; reflexivity).
  split; [exact H|].
  rewrite H. intro E.
  apply (f_equal (fun r => match r with Ok x => x | _ => 0%float end)) in E.
  revert E. apply float_neq; vm_compute; reflexivity.
Qed.

(** C5. Left associativity: ["10-3-2"] is parsed as (10-3)-2 and
    evaluated to 5.0. *)
Theorem left_associativity :
  (tokens <- scan "10-3-2" ;; parse tokens) =
    Ok (Expr (Expr (Tok (num "10")) (Token1 MINUS) (Tok (num "3")))
             (Token1 MINUS) (Tok (num "2"))) /\
  main "10-3-2" = Ok 5%float.
Proof. split; vm_compute; reflexivity. Qed.

(** C6. Outer brackets: ["(1+2)"] and ["1+2"] are parsed to the same
    tree. *)
Theorem outer_brackets_stripped :
  (tokens <- scan "(1+2)" ;; parse tokens) =
    Ok (Expr (Tok (num "1")) (Token1 PLUS) (Tok (num "2"))) /\
  (tokens <- scan "(1+2)" ;; parse tokens) =
  (tokens <- scan "1+2" ;; parse tokens).
Proof. split; vm_compute; reflexivity. Qed.

(** * Further properties of the scanner, the parser and the pipeline *)

(** ** The exceptions of the scanner *)

Lemma get_in_range (s : string) (i : nat) :
  i < String.length s -> exists c, String.get i s = Some c.
Proof.
  intros H. destruct (String.get i s) as [c|] eqn:E; [eauto|].
  apply get_None in E. lia.
Qed.

(** One turn of the scanning loop at a character that is not a digit. *)
Lemma scan_while_other fuel source curr tokens c :
  String.get curr source = Some c -> is_digit c = false ->
  scan_while (S fuel) source curr tokens =
    if Ascii.eqb c "+" then
      scan_while fuel source (curr + 1) (tokens ++ [Token1 PLUS])
    else if Ascii.eqb c "-" then
      scan_while fuel source (curr + 1) (tokens ++ [Token1 MINUS])
    else if Ascii.eqb c "*" then
      scan_while fuel source (curr + 1) (tokens ++ [Token1 ASTERISK])
    else if Ascii.eqb c "/" then
      scan_while fuel source (curr + 1) (tokens ++ [Token1 FSLASH])
    else if Ascii.eqb c "(" then
      scan_while fuel source (curr + 1) (tokens ++ [Token1 LBRACKET])
    else if Ascii.eqb c ")" then
      scan_while fuel source (curr + 1) (tokens ++ [Token1 RBRACKET])
    else if Ascii.eqb c "." then
      scan_while fuel source (curr + 1) (tokens ++ [Token1 DOT])
    else if Ascii.eqb c " " then
      scan_while fuel source (curr + 1) tokens
    else Raise (ValueError "").
Proof.
  intros Hc Hd. cbn [scan_while].
  assert (Hlen : curr < String.length source).
  { destruct (Nat.lt_ge_cases curr (String.length source)) as [H|H]; [exact H|].
    apply get_None in H. congruence. }
  apply Nat.ltb_lt in Hlen. rewrite Hlen. unfold char_at. rewrite Hc.
  cbn [bind]. rewrite Hd. reflexivity.
Qed.

Lemma scan_while_end fuel source curr tokens :
  String.length source <= curr ->
  scan_while (S fuel) source curr tokens = Ok tokens.
Proof.
  intros H. cbn [scan_while]. apply Nat.ltb_ge in H. now rewrite H.
Qed.

(** The scanning loop, case by case on the character under [curr]. *)
Lemma scan_while_cases fuel source curr tokens :
  (String.length source <= curr /\
   scan_while (S fuel) source curr tokens = Ok tokens) \/
  (digit_at source curr = true /\ curr < String.length source) \/
  (exists c, String.get curr source = Some c /\ is_digit c = false).
Proof.
  destruct (Nat.lt_ge_cases curr (String.length source)) as [H|H].
  - right. destruct (get_in_range source curr H) as [c Hc].
    destruct (is_digit c) eqn:Hd.
    + left. split; [|exact H]. unfold digit_at. now rewrite Hc.
    + right. eauto.
  - left. split; [exact H|now apply scan_while_end].
Qed.

Lemma scan_while_Raise (source : string) : forall fuel curr tokens e,
  scan_while fuel source curr tokens = Raise e ->
  (e = ValueError "Number has two decimal points") \/
  (e = ValueError "" /\
   exists i c, String.get i source = Some c /\ known c = false).
Proof.
  induction fuel as [|fuel IH]; intros curr tokens e H; [discriminate|].
  destruct (scan_while_cases fuel source curr tokens)
    as [[_ E]|[[Hd _]|(c & Hc & Hd)]].
  - rewrite E in H. discriminate.
  - rewrite scan_while_digit in H by exact Hd.
    destruct (scan_num source curr) as [curr'| |] eqn:E; cbn [bind] in H.
    + now apply IH in H.
    + injection H as <-. left. now apply scan_num_Raise in E.
    + discriminate.
  - rewrite (scan_while_other fuel source curr tokens c Hc Hd) in H.
    assert (K : known c = is_digit c ||
       (Ascii.eqb c "+" || (Ascii.eqb c "-" || (Ascii.eqb c "*" ||
       (Ascii.eqb c "/" || (Ascii.eqb c "(" || (Ascii.eqb c ")" ||
       (Ascii.eqb c "." || (Ascii.eqb c " " || false))))))))) by reflexivity.
    rewrite Hd in K. cbn [orb] in K.
    repeat match type of H with
           | (if ?b then _ else _) = _ =>
               destruct b; [now apply IH in H|]
           end.
    injection H as <-. right. split; [reflexivity|]. exists curr, c. now split.
Qed.

(** X1. The scanner raises nothing but [ValueError]: it never reads past
    the end of the text ([IndexError]).  It raises the error without
    message only on a text that holds a character it has no case
    for. *)
Theorem scan_exceptions (source : string) (e : exn) :
  scan source = Raise e ->
  (e = ValueError "Number has two decimal points") \/
  (e = ValueError "" /\
   exists i c, String.get i source = Some c /\ known c = false).
Proof. apply scan_while_Raise. Qed.

Lemma scan_exceptions_witness :
  (ValueError "" = ValueError "Number has two decimal points") \/
  (ValueError "" = ValueError "" /\
   exists i c, String.get i "1+@" = Some c /\ known c = false).
Proof. apply (scan_exceptions "1+@"). vm_compute. reflexivity. Defined.

(** ** Blank input *)

Lemma blank_at (s : string) : forall i,
  blank s = true -> i < String.length s -> String.get i s = Some " "%char.
Proof.
  induction s as [|c s IH]; intros i H Hi; [cbn in Hi; lia|].
  cbn [blank] in H. apply andb_prop in H as [Hc Hs].
  destruct i as [|i]; cbn [String.get].
  - apply Ascii.eqb_eq in Hc. now subst c.
  - apply IH; [exact Hs|cbn in Hi; lia].
Qed.

Lemma scan_while_blank (source : string) : forall fuel curr tokens,
  blank source = true -> String.length source - curr < fuel ->
  scan_while fuel source curr tokens = Ok tokens.
Proof.
  induction fuel as [|fuel IH]; intros curr tokens Hb Hf; [lia|].
  destruct (Nat.lt_ge_cases curr (String.length source)) as [H|H].
  - rewrite (scan_while_other fuel source curr tokens " "%char);
      [|now apply blank_at|reflexivity].
    cbn. apply IH; [exact Hb|lia].
  - now apply scan_while_end.
Qed.

(** X2. A text of spaces only (the empty text too) gives no token, and
    [main] then raises [IndexError] at [tokens[0]]. *)
Theorem blank_input (source : string) :
  blank source = true ->
  scan source = Ok [] /\ main source = Raise IndexError.
Proof.
  intros H.
  assert (E : scan source = Ok []).
  { apply scan_while_blank; [exact H|]. unfold scan_fuel. lia. }
  split; [exact E|]. unfold main. rewrite E. reflexivity.
Qed.

Lemma blank_input_witness : main "   " = Raise IndexError.
Proof. apply (blank_input "   "). reflexivity. Defined.

(** ** The tokens of the scanner *)

Lemma length_substring (s : string) : forall a n,
  a + n <= String.length s -> String.length (substring a n s) = n.
Proof.
  intros a n. revert a. induction n as [|n IH]; intros a H.
  - now rewrite substring_none.
  - destruct (get_in_range s a ltac:(lia)) as [c Hc].
    rewrite (substring_step s a n c Hc). cbn [String.length].
    rewrite IH; [reflexivity|lia].
Qed.

(** A scanned number ends inside the text. *)
Lemma scan_num_in_range (source : string) (curr curr' : nat) :
  curr < String.length source ->
  scan_num source curr = Ok curr' -> curr' < String.length source.
Proof.
  intros Hlen H. apply scan_num_Ok in H as (p & Hp & Hd & Hshape).
  assert (Hpl : p < String.length source).
  { destruct (Nat.eq_dec p curr) as [->|Hne]; [exact Hlen|].
    apply digit_at_length, Hd. lia. }
  destruct Hshape as [[-> _]|(Hc & Hpt & Hd2)]; [exact Hpl|].
  destruct (Nat.eq_dec curr' (p + 1)) as [->|Hne].
  - now apply point_at_length.
  - apply digit_at_length, Hd2. lia.
Qed.

Lemma scanned_Token1 (ttype : TokenType) :
  ttype <> NUM -> scanned_token (Token1 ttype).
Proof. intros H. split; [exact H|reflexivity]. Qed.

Lemma scan_while_scanned (source : string) : forall fuel curr tokens tokens',
  Forall scanned_token tokens ->
  scan_while fuel source curr tokens = Ok tokens' ->
  Forall scanned_token tokens'.
Proof.
  induction fuel as [|fuel IH]; intros curr tokens tokens' Hall H; [discriminate|].
  assert (Hone : forall ttype, ttype <> NUM ->
                 Forall scanned_token (tokens ++ [Token1 ttype])).
  { intros ttype Hty. apply Forall_app. split; [exact Hall|].
    constructor; [now apply scanned_Token1|constructor]. }
  destruct (scan_while_cases fuel source curr tokens)
    as [[_ E]|[[Hd Hlen]|(c & Hc & Hd)]].
  - rewrite E in H. now injection H as <-.
  - rewrite scan_while_digit in H by exact Hd.
    apply bind_Ok in H as [curr' [Hnum H]].
    apply IH in H; [exact H|].
    apply Forall_app. split; [exact Hall|]. constructor; [|constructor].
    pose proof (scan_num_forward _ _ _ Hnum) as Hfw.
    pose proof (scan_num_in_range _ _ _ Hlen Hnum) as Hin.
    unfold scanned_token. cbn [get_value get_ttype get_length].
    split; [reflexivity|]. split.
    + rewrite length_substring; lia.
    + now apply scanned_number_literal.
  - rewrite (scan_while_other fuel source curr tokens c Hc Hd) in H.
    repeat match type of H with
           | (if ?b then _ else _) = _ =>
               destruct b;
               [apply IH in H;
                [exact H|try apply Hone; try discriminate; try exact Hall]|]
           end.
    discriminate.
Qed.

(** X4. Every token the scanner returns is well made: a [NUM] token
    carries a text that [float] reads, and its length field is the
    length of that text; a token of another type carries no value and
    the length 1. *)
Theorem scan_tokens (source : string) (tokens : list Token) :
  scan source = Ok tokens -> Forall scanned_token tokens.
Proof. apply scan_while_scanned. constructor. Qed.

Lemma scan_tokens_witness :
  Forall scanned_token [num "12.5"; Token1 ASTERISK; num "4"].
Proof. apply (scan_tokens "12.5 * 4"). vm_compute. reflexivity. Defined.

(** ** From the tokens back to the text *)

Lemma append_empty_r (s : string) : (s ++ "")%string = s.
Proof. induction s as [|c s IH]; cbn; [reflexivity|now rewrite IH]. Qed.

Lemma append_assoc (s1 s2 s3 : string) :
  ((s1 ++ s2) ++ s3)%string = (s1 ++ s2 ++ s3)%string.
Proof. induction s1 as [|c s1 IH]; cbn; [reflexivity|now rewrite IH]. Qed.

Lemma tokens_text_app (l1 l2 : list Token) :
  tokens_text (l1 ++ l2) = (tokens_text l1 ++ tokens_text l2)%string.
Proof.
  induction l1 as [|tok l1 IH]; cbn [tokens_text app]; [reflexivity|].
  now rewrite IH, append_assoc.
Qed.

Lemma tokens_text_last (l : list Token) (tok : Token) :
  tokens_text (l ++ [tok]) = (tokens_text l ++ token_text tok)%string.
Proof. rewrite tokens_text_app. cbn [tokens_text]. now rewrite append_empty_r. Qed.

Lemma without_spaces_app (s1 s2 : string) :
  without_spaces (s1 ++ s2) = (without_spaces s1 ++ without_spaces s2)%string.
Proof.
  induction s1 as [|c s1 IH]; cbn [without_spaces append]; [reflexivity|].
  rewrite IH. now destruct (Ascii.eqb c " ").
Qed.

Lemma substring_split (s : string) : forall n a m,
  a + n <= String.length s ->
  substring a (n + m) s = (substring a n s ++ substring (a + n) m s)%string.
Proof.
  induction n as [|n IH]; intros a m H.
  - now rewrite substring_none, Nat.add_0_r.
  - destruct (get_in_range s a ltac:(lia)) as [c Hc].
    cbn [Nat.add]. rewrite !(substring_step s a _ c Hc). cbn [append].
    rewrite IH by lia. now replace (S a + n) with (a + S n) by lia.
Qed.

(** A part of the text made of digits and points holds no space. *)
Lemma without_spaces_number (source : string) : forall n a,
  a + n <= String.length source ->
  (forall j, j < n ->
     digit_at source (a + j) = true \/ point_at source (a + j) = true) ->
  without_spaces (substring a n source) = substring a n source.
Proof.
  induction n as [|n IH]; intros a H Hd.
  - now rewrite substring_none.
  - destruct (get_in_range source a ltac:(lia)) as [c Hc].
    rewrite (substring_step source a n c Hc). cbn [without_spaces].
    assert (Hsp : Ascii.eqb c " " = false).
    { specialize (Hd 0 ltac:(lia)). rewrite Nat.add_0_r in Hd.
      unfold digit_at, point_at in Hd. rewrite Hc in Hd.
      destruct (Ascii.eqb c " ") eqn:E; [|reflexivity].
      apply Ascii.eqb_eq in E. subst c. destruct Hd; discriminate. }
    rewrite Hsp, IH; [reflexivity|lia|].
    intros j Hj. specialize (Hd (S j) ltac:(lia)).
    now replace (S a + j) with (a + S j) by lia.
Qed.

(** The characters of a scanned number are digits and points. *)
Lemma scan_num_characters (source : string) (curr curr' : nat) :
  digit_at source curr = true ->
  scan_num source curr = Ok curr' ->
  forall i, curr <= i <= curr' ->
    digit_at source i = true \/ point_at source i = true.
Proof.
  intros H0 H i Hi. apply scan_num_Ok in H as (p & Hp & Hd & Hshape).
  destruct (Nat.eq_dec i curr) as [->|Hne]; [now left|].
  destruct (Nat.le_gt_cases i p) as [Hle|Hgt]; [left; apply Hd; lia|].
  destruct Hshape as [[-> _]|(Hc & Hpt & Hd2)]; [lia|].
  destruct (Nat.eq_dec i (p + 1)) as [->|Hne2]; [now right|].
  left. apply Hd2. lia.
Qed.

Lemma scan_while_text (source : string) : forall fuel curr tokens tokens',
  curr <= String.length source ->
  scan_while fuel source curr tokens = Ok tokens' ->
  tokens_text tokens' =
  (tokens_text tokens ++
   without_spaces (substring curr (String.length source - curr) source))%string.
Proof.
  induction fuel as [|fuel IH]; intros curr tokens tokens' Hcurr H; [discriminate|].
  destruct (scan_while_cases fuel source curr tokens)
    as [[Hend E]|[[Hd Hlen]|(c & Hc & Hd)]].
  - rewrite E in H. injection H as <-.
    replace (String.length source - curr) with 0 by lia.
    now rewrite substring_none, append_empty_r.
  - rewrite scan_while_digit in H by exact Hd.
    apply bind_Ok in H as [curr' [Hnum H]].
    pose proof (scan_num_forward _ _ _ Hnum) as Hfw.
    pose proof (scan_num_in_range _ _ _ Hlen Hnum) as Hin.
    apply IH in H; [|lia]. rewrite H, tokens_text_last, append_assoc. f_equal.
    unfold token_text. cbn [get_value].
    replace (String.length source - curr)
      with ((curr' + 1 - curr) + (String.length source - (curr' + 1))) by lia.
    rewrite substring_split, without_spaces_app by lia.
    rewrite (without_spaces_number source (curr' + 1 - curr) curr); [|lia|].
    + now replace (curr + (curr' + 1 - curr)) with (curr' + 1) by lia.
    + intros j Hj. apply (scan_num_characters source curr curr' Hd Hnum). lia.
  - assert (Hlen : curr < String.length source).
    { destruct (Nat.lt_ge_cases curr (String.length source)) as [Hl|Hl];
        [exact Hl|]. apply get_None in Hl. congruence. }
    rewrite (scan_while_other fuel source curr tokens c Hc Hd) in H.
    replace (String.length source - curr)
      with (S (String.length source - (curr + 1))) by lia.
    rewrite (substring_step source curr _ c Hc). cbn [without_spaces].
    replace (S curr) with (curr + 1) by lia.
    repeat match type of H with
           | (if Ascii.eqb c ?x then _ else _) = _ =>
               let E := fresh "E" in
               destruct (Ascii.eqb c x) eqn:E;
               [apply Ascii.eqb_eq in E; subst c; apply IH in H; [|lia];
                rewrite H; rewrite ?tokens_text_last, ?append_assoc; reflexivity|]
           end.
    discriminate.
Qed.

(** X5. Scanning loses nothing but spaces: the texts of the tokens, put
    one after the other, are the text that was scanned, without its
    spaces. *)
Theorem scan_text (source : string) (tokens : list Token) :
  scan source = Ok tokens -> tokens_text tokens = without_spaces source.
Proof.
  intros H. apply scan_while_text in H; [|lia].
  rewrite H. cbn [tokens_text append]. rewrite Nat.sub_0_r.
  f_equal. clear H tokens.
  induction source as [|c s IH]; [reflexivity|]. cbn [String.length substring].
  now rewrite IH.
Qed.

Lemma scan_text_witness :
  tokens_text [Token1 LBRACKET; num "1.5"; Token1 PLUS; num "20"; Token1 RBRACKET;
               Token1 FSLASH; num "4"] = "(1.5+20)/4".
Proof. apply (scan_text "( 1.5 + 20 ) / 4"). vm_compute. reflexivity. Defined.

(** ** Where a successful call stops *)

(** X6. A successful call of [parse_expression], [parse_term] or
    [parse_factor] takes at least one token and returns an index that is
    at most [len(tokens)]. *)
Theorem parser_forward (fuel : nat) (tokens : list Token) (curr : nat)
    (t : ast) (curr' : nat) :
  parse_expression fuel tokens curr = Ok (t, curr') \/
  parse_term fuel tokens curr = Ok (t, curr') \/
  parse_factor fuel tokens curr = Ok (t, curr') ->
  curr < curr' <= List.length tokens.
Proof.
  destruct (parser_sound tokens fuel) as (Se & _ & St & _ & Sf).
  destruct (parser_progress tokens) as (Pe & _ & Pt & _ & Pf).
  intros [H|[H|H]]; [apply Se, Pe in H|apply St, Pt in H|apply Sf, Pf in H];
    exact H.
Qed.

Lemma parser_forward_witness : 0 < 3 <= 5.
Proof.
  apply (parser_forward 18 [num "1"; Token1 PLUS; num "2"; Token1 RBRACKET; num "3"]
           0 (Expr (Tok (num "1")) (Token1 PLUS) (Tok (num "2"))) 3).
  left. vm_compute. reflexivity.
Defined.

(** ** The tokens of the tree *)

Lemma without_brackets_app (l1 l2 : list Token) :
  without_brackets (l1 ++ l2) = without_brackets l1 ++ without_brackets l2.
Proof. apply filter_app. Qed.

Lemma without_brackets_additive (op : Token) :
  ttype_in (get_ttype op) [PLUS; MINUS] = true -> without_brackets [op] = [op].
Proof.
  unfold without_brackets, is_bracket. cbn [filter].
  destruct (get_ttype op); cbn; intros H; try discriminate; reflexivity.
Qed.

Lemma without_brackets_multiplicative (op : Token) :
  ttype_in (get_ttype op) [ASTERISK; FSLASH] = true -> without_brackets [op] = [op].
Proof.
  unfold without_brackets, is_bracket. cbn [filter].
  destruct (get_ttype op); cbn; intros H; try discriminate; reflexivity.
Qed.

Lemma derivation_tokens (tokens : list Token) :
  (forall curr t curr', expression_at tokens curr t curr' ->
     tokens_of t = without_brackets (slice tokens curr curr')) /\
  (forall left_ curr t curr', expression_loop tokens left_ curr t curr' ->
     forall start, start <= curr ->
       tokens_of left_ = without_brackets (slice tokens start curr) ->
       tokens_of t = without_brackets (slice tokens start curr')) /\
  (forall curr t curr', term_at tokens curr t curr' ->
     tokens_of t = without_brackets (slice tokens curr curr')) /\
  (forall left_ curr t curr', term_loop tokens left_ curr t curr' ->
     forall start, start <= curr ->
       tokens_of left_ = without_brackets (slice tokens start curr) ->
       tokens_of t = without_brackets (slice tokens start curr')) /\
  (forall curr t curr', factor_at tokens curr t curr' ->
     tokens_of t = without_brackets (slice tokens curr curr')).
Proof.
  destruct (parser_progress tokens) as (Pe & Pel & Pt & Ptl & Pf).
  apply parser_derivation_ind.
  - intros curr l c1 t c2 Hterm IH1 _ IH2.
    apply IH2; [apply Pt in Hterm; lia|exact IH1].
  - intros l curr _ start _ H. exact H.
  - intros l curr op r c1 t c2 Hop Hin Hterm IH1 _ IH2 start Hstart H.
    pose proof (Pt _ _ _ Hterm) as Hp.
    apply IH2; [lia|].
    rewrite (slice_split tokens start curr c1) by lia.
    rewrite (slice_split tokens curr (curr + 1) c1) by lia.
    rewrite (slice_one tokens curr op Hop), !without_brackets_app.
    rewrite (without_brackets_additive op Hin), <- H, <- IH1. reflexivity.
  - intros curr l c1 t c2 Hfactor IH1 _ IH2.
    apply IH2; [apply Pf in Hfactor; lia|exact IH1].
  - intros l curr _ start _ H. exact H.
  - intros l curr op r c1 t c2 Hop Hin Hfactor IH1 _ IH2 start Hstart H.
    pose proof (Pf _ _ _ Hfactor) as Hp.
    apply IH2; [lia|].
    rewrite (slice_split tokens start curr c1) by lia.
    rewrite (slice_split tokens curr (curr + 1) c1) by lia.
    rewrite (slice_one tokens curr op Hop), !without_brackets_app.
    rewrite (without_brackets_multiplicative op Hin), <- H, <- IH1. reflexivity.
  - intros curr token Htok Hnum.
    rewrite (slice_one tokens curr token Htok).
    unfold without_brackets, is_bracket. cbn [filter]. rewrite Hnum. reflexivity.
  - intros curr token e c1 closing Htok Hl Hexpr IH Hc Hr.
    pose proof (Pe _ _ _ Hexpr) as Hp.
    rewrite (slice_split tokens curr (curr + 1) (c1 + 1)) by lia.
    rewrite (slice_split tokens (curr + 1) c1 (c1 + 1)) by lia.
    rewrite (slice_one tokens curr token Htok), (slice_one tokens c1 closing Hc).
    rewrite !without_brackets_app, <- IH.
    assert (Ho : without_brackets [token] = []).
    { unfold without_brackets, is_bracket. cbn [filter]. now rewrite Hl. }
    assert (Hcl : without_brackets [closing] = []).
    { unfold without_brackets, is_bracket. cbn [filter]. now rewrite Hr. }
    rewrite Ho, Hcl. cbn [app]. now rewrite app_nil_r.
Qed.

(** X7. The tree keeps the tokens it was made from, in their order: read
    from left to right, the tokens of the tree returned by
    [parse_expression(tokens, curr)] are the tokens from [curr] to the
    returned index, without the brackets. *)
Theorem parse_expression_tokens (fuel : nat) (tokens : list Token) (curr : nat)
    (t : ast) (curr' : nat) :
  parse_expression fuel tokens curr = Ok (t, curr') ->
  tokens_of t = without_brackets (slice tokens curr curr').
Proof.
  intros H.
  destruct (parser_sound tokens fuel) as (Se & _).
  destruct (derivation_tokens tokens) as (De & _).
  apply De, Se, H.
Qed.

Lemma parse_expression_tokens_witness :
  tokens_of (Expr (Tok (num "2")) (Token1 ASTERISK)
               (Expr (Tok (num "3")) (Token1 PLUS) (Tok (num "4")))) =
  without_brackets
    (slice [num "2"; Token1 ASTERISK; Token1 LBRACKET; num "3"; Token1 PLUS;
            num "4"; Token1 RBRACKET] 0 7).
Proof.
  apply (parse_expression_tokens 24). vm_compute. reflexivity.
Defined.

(** ** The parsing stage on an expression *)

(** An expression that does not start with a bracket goes through the
    outer bracket test unchanged. *)
Lemma outer_brackets_kept (ts rest : list Token) (t : ast) :
  expression_of ts t ->
  hd_error (map get_ttype ts) <> Some LBRACKET ->
  outer_brackets (ts ++ rest) = Ok (ts ++ rest).
Proof.
  intros Hts Hfirst. unfold outer_brackets, item.
  destruct ts as [|first ts']; cbn [app nth_error bind].
  - apply expression_of_parse_expression, parser_sound, parser_progress in Hts.
    cbn [List.length] in Hts. lia.
  - destruct (TokenType_eqb (get_ttype first) LBRACKET) eqn:El; [|reflexivity].
    apply TokenType_eqb_eq in El. cbn in Hfirst. congruence.
Qed.

Lemma parse_of_expression (ts : list Token) (t : ast) :
  expression_of ts t ->
  hd_error (map get_ttype ts) <> Some LBRACKET ->
  parse ts = Ok t.
Proof.
  intros Hts Hfirst. unfold parse.
  pose proof (outer_brackets_kept ts [] t Hts Hfirst) as O.
  rewrite app_nil_r in O. rewrite O. cbn [bind].
  now rewrite (expression_of_parse_expression ts t Hts).
Qed.

Lemma expression_of_number (a : Token) :
  get_ttype a = NUM -> expression_of [a] (Tok a).
Proof. intros H. now apply expression_of_term, term_of_factor, factor_of_number. Qed.

Lemma term_of_number (a : Token) : get_ttype a = NUM -> term_of [a] (Tok a).
Proof. intros H. now apply term_of_factor, factor_of_number. Qed.

(** X9. Precedence: with numbers [a], [b], [c], an operator [add] that
    is [PLUS] or [MINUS] and an operator [mul] that is [ASTERISK] or
    [FSLASH], the parsing stage groups [a add b mul c] as
    [a add (b mul c)] and [a mul b add c] as [(a mul b) add c]. *)
Theorem precedence_of_operators (a b c add mul : Token) :
  get_ttype a = NUM -> get_ttype b = NUM -> get_ttype c = NUM ->
  ttype_in (get_ttype add) [PLUS; MINUS] = true ->
  ttype_in (get_ttype mul) [ASTERISK; FSLASH] = true ->
  parse [a; add; b; mul; c] = Ok (Expr (Tok a) add (Expr (Tok b) mul (Tok c))) /\
  parse [a; mul; b; add; c] = Ok (Expr (Expr (Tok a) mul (Tok b)) add (Tok c)).
Proof.
  intros Ha Hb Hc Hadd Hmul. split; apply parse_of_expression;
    try (cbn; rewrite Ha; discriminate).
  - apply (expression_of_more [a] add [b; mul; c]);
      [now apply expression_of_number|exact Hadd|].
    apply (term_of_more [b] mul [c]);
      [now apply term_of_number|exact Hmul|now apply factor_of_number].
  - apply (expression_of_more [a; mul; b] add [c]);
      [|exact Hadd|now apply term_of_number].
    apply expression_of_term.
    apply (term_of_more [a] mul [b]);
      [now apply term_of_number|exact Hmul|now apply factor_of_number].
Qed.

Lemma precedence_of_operators_witness :
  parse [num "8"; Token1 MINUS; num "6"; Token1 FSLASH; num "2"] =
  Ok (Expr (Tok (num "8")) (Token1 MINUS)
        (Expr (Tok (num "6")) (Token1 FSLASH) (Tok (num "2")))).
Proof.
  apply (precedence_of_operators (num "8") (num "6") (num "2")
           (Token1 MINUS) (Token1 FSLASH)); reflexivity.
Defined.

(** X10. Associativity: two operators of the same level group to the
    left, [a op1 b op2 c] is [(a op1 b) op2 c]. *)
Theorem operators_group_left (a b c op1 op2 : Token) :
  get_ttype a = NUM -> get_ttype b = NUM -> get_ttype c = NUM ->
  (ttype_in (get_ttype op1) [PLUS; MINUS] = true /\
   ttype_in (get_ttype op2) [PLUS; MINUS] = true) \/
  (ttype_in (get_ttype op1) [ASTERISK; FSLASH] = true /\
   ttype_in (get_ttype op2) [ASTERISK; FSLASH] = true) ->
  parse [a; op1; b; op2; c] = Ok (Expr (Expr (Tok a) op1 (Tok b)) op2 (Tok c)).
Proof.
  intros Ha Hb Hc [[H1 H2]|[H1 H2]]; apply parse_of_expression;
    try (cbn; rewrite Ha; discriminate).
  - apply (expression_of_more [a; op1; b] op2 [c]);
      [|exact H2|now apply term_of_number].
    apply (expression_of_more [a] op1 [b]);
      [now apply expression_of_number|exact H1|now apply term_of_number].
  - apply expression_of_term.
    apply (term_of_more [a; op1; b] op2 [c]);
      [|exact H2|now apply factor_of_number].
    apply (term_of_more [a] op1 [b]);
      [now apply term_of_number|exact H1|now apply factor_of_number].
Qed.

Lemma operators_group_left_witness :
  parse [num "8"; Token1 FSLASH; num "4"; Token1 ASTERISK; num "2"] =
  Ok (Expr (Expr (Tok (num "8")) (Token1 FSLASH) (Tok (num "4")))
        (Token1 ASTERISK) (Tok (num "2"))).
Proof.
  apply (operators_group_left (num "8") (num "4") (num "2")
           (Token1 FSLASH) (Token1 ASTERISK)); try reflexivity.
  right. split; reflexivity.
Defined.

(** X11. One pair of brackets around a whole expression changes nothing:
    the parsing stage returns the tree of the expression inside. *)
Theorem parse_wrapped (opening closing : Token) (ts : list Token) (t : ast) :
  get_ttype opening = LBRACKET -> get_ttype closing = RBRACKET ->
  expression_of ts t ->
  parse (opening :: ts ++ [closing]) = Ok t.
Proof.
  intros Hl Hr Hts. unfold parse.
  rewrite (outer_brackets_wrapped opening closing ts Hl Hr). cbn [bind].
  now rewrite (expression_of_parse_expression ts t Hts).
Qed.

Lemma parse_wrapped_witness :
  parse (Token1 LBRACKET :: [num "1"; Token1 PLUS; num "2"] ++ [Token1 RBRACKET]) =
  Ok (Expr (Tok (num "1")) (Token1 PLUS) (Tok (num "2"))).
Proof.
  apply parse_wrapped; try reflexivity.
  apply (expression_of_more [num "1"] (Token1 PLUS) [num "2"]);
    [apply expression_of_number|reflexivity|apply term_of_number]; reflexivity.
Defined.

(** X12. The outer bracket test takes the first and the last bracket for
    a pair even when they are not: when the tokens are a bracketed
    expression [ts], then more tokens, then a closing bracket, the
    parsing stage returns the tree of [ts] and drops the rest, so that
    [(1+2)*(3+4)] is parsed as [1+2]. *)
Theorem parse_first_group_only (opening closing last : Token)
    (ts rest : list Token) (t : ast) :
  get_ttype opening = LBRACKET -> get_ttype closing = RBRACKET ->
  get_ttype last = RBRACKET ->
  expression_of ts t ->
  parse (opening :: (ts ++ closing :: rest) ++ [last]) = Ok t.
Proof.
  intros Hl Hr Hlast Hts. unfold parse.
  rewrite (outer_brackets_wrapped opening last (ts ++ closing :: rest) Hl Hlast).
  cbn [bind].
  assert (E : parse_expression (parse_fuel (ts ++ closing :: rest))
                (ts ++ closing :: rest) 0 = Ok (t, List.length ts)).
  { apply parse_expression_iff. apply expression_of_parsed; [exact Hts|].
    intros op [= <-]. unfold arithmetic. now rewrite Hr. }
  now rewrite E.
Qed.

Lemma parse_first_group_only_witness :
  parse (Token1 LBRACKET ::
           ([num "1"; Token1 PLUS; num "2"] ++
            Token1 RBRACKET :: [Token1 ASTERISK; Token1 LBRACKET; num "3";
                                Token1 PLUS; num "4"]) ++ [Token1 RBRACKET]) =
  Ok (Expr (Tok (num "1")) (Token1 PLUS) (Tok (num "2"))).
Proof.
  apply parse_first_group_only; try reflexivity.
  apply (expression_of_more [num "1"] (Token1 PLUS) [num "2"]);
    [apply expression_of_number|reflexivity|apply term_of_number]; reflexivity.
Defined.

(** ** An operator at the end of the tokens *)

Lemma factor_of_result (ts : list Token) (t : ast) :
  factor_of ts t ->
  forall before after,
    factor_result (before ++ ts ++ after) (List.length before) =
    Ok (t, List.length before + List.length ts).
Proof.
  intros H before after. apply factor_result_iff.
  now apply grammar_parsed.
Qed.

(** After a term, [parse_term] is at the head of its loop with the tree
    of the term. *)
Lemma term_of_result (ts : list Token) (t : ast) :
  term_of ts t ->
  forall before after,
    term_result (before ++ ts ++ after) (List.length before) =
    term_while_result (before ++ ts ++ after) t
      (List.length before + List.length ts).
Proof.
  induction 1 as [ts t Hf|ts1 op ts2 l r _ IH Hop Hf]; intros before after.
  - rewrite term_result_eq, (factor_of_result ts t Hf). reflexivity.
  - rewrite <- app_assoc. cbn [app]. rewrite length_app. cbn [List.length].
    rewrite IH.
    rewrite term_while_result_eq.
    replace (nth_error (before ++ ts1 ++ op :: ts2 ++ after)
               (List.length before + List.length ts1)) with (Some op).
    2:{ symmetry. rewrite nth_error_app2, Nat.add_comm, Nat.add_sub by lia.
        apply nth_error_middle. }
    rewrite Hop.
    pose proof (factor_of_result ts2 r Hf (before ++ ts1 ++ [op]) after) as F.
    repeat (rewrite <- ?app_assoc in F; cbn [app] in F).
    rewrite !length_app in F. cbn [List.length] in F.
    replace (List.length before + List.length ts1 + 1)
      with (List.length before + (List.length ts1 + 1)) by lia.
    rewrite F. cbn [bind].
    now replace (List.length before + (List.length ts1 + 1) + List.length ts2)
      with (List.length before + (List.length ts1 + S (List.length ts2))) by lia.
Qed.

Lemma term_while_result_exit (tokens : list Token) (t : ast) (curr : nat) :
  (forall op, nth_error tokens curr = Some op ->
              ttype_in (get_ttype op) [ASTERISK; FSLASH] = false) ->
  term_while_result tokens t curr = Ok (t, curr).
Proof.
  intros H. rewrite term_while_result_eq.
  destruct (nth_error tokens curr) as [op|]; [|reflexivity].
  now rewrite (H op eq_refl).
Qed.

(** After an expression that is not followed by [*] or [/],
    [parse_expression] is at the head of its loop with the tree of the
    expression. *)
Lemma expression_of_result (ts : list Token) (t : ast) :
  expression_of ts t ->
  forall before after,
    (forall op, nth_error (before ++ ts ++ after)
                  (List.length before + List.length ts) = Some op ->
                ttype_in (get_ttype op) [ASTERISK; FSLASH] = false) ->
    expression_result (before ++ ts ++ after) (List.length before) =
    expression_while_result (before ++ ts ++ after) t
      (List.length before + List.length ts).
Proof.
  induction 1 as [ts t Ht|ts1 op ts2 l r _ IH Hop Ht]; intros before after Hnext.
  - rewrite expression_result_eq, (term_of_result ts t Ht).
    rewrite term_while_result_exit by exact Hnext. reflexivity.
  - revert Hnext. rewrite <- app_assoc. cbn [app]. rewrite length_app.
    cbn [List.length]. intros Hnext.
    assert (Hat : nth_error (before ++ ts1 ++ op :: ts2 ++ after)
                    (List.length before + List.length ts1) = Some op).
    { rewrite nth_error_app2, Nat.add_comm, Nat.add_sub by lia.
      apply nth_error_middle. }
    rewrite IH.
    2:{ intros op'. rewrite Hat. intros [= <-].
        now apply additive_not_multiplicative. }
    rewrite expression_while_result_eq, Hat, Hop.
    pose proof (term_of_result ts2 r Ht (before ++ ts1 ++ [op]) after) as T.
    repeat (rewrite <- ?app_assoc in T; cbn [app] in T).
    rewrite !length_app in T. cbn [List.length] in T.
    replace (List.length before + List.length ts1 + 1)
      with (List.length before + (List.length ts1 + 1)) by lia.
    rewrite T.
    replace (List.length before + (List.length ts1 + 1) + List.length ts2)
      with (List.length before + (List.length ts1 + S (List.length ts2))) by lia.
    rewrite term_while_result_exit by exact Hnext. reflexivity.
Qed.

Lemma factor_result_end (tokens : list Token) (curr : nat) :
  List.length tokens <= curr -> factor_result tokens curr = Raise IndexError.
Proof.
  intros H. rewrite factor_result_eq.
  now replace (nth_error tokens curr) with (@None Token)
    by (symmetry; apply nth_error_None; exact H).
Qed.

Lemma term_result_end (tokens : list Token) (curr : nat) :
  List.length tokens <= curr -> term_result tokens curr = Raise IndexError.
Proof. intros H. now rewrite term_result_eq, factor_result_end. Qed.

(** A term followed by a last [*] or [/]. *)
Lemma term_of_dangling (ts : list Token) (t : ast) (op : Token) :
  term_of ts t ->
  ttype_in (get_ttype op) [ASTERISK; FSLASH] = true ->
  forall before,
    term_result (before ++ ts ++ [op]) (List.length before) = Raise IndexError.
Proof.
  intros Ht Hop before. rewrite (term_of_result ts t Ht), term_while_result_eq.
  replace (nth_error (before ++ ts ++ [op]) (List.length before + List.length ts))
    with (Some op).
  2:{ symmetry. rewrite app_assoc, <- length_app. apply nth_error_middle. }
  rewrite Hop, factor_result_end; [reflexivity|].
  rewrite !length_app. cbn [List.length]. lia.
Qed.

Lemma expression_of_dangling (ts : list Token) (t : ast) (op : Token) :
  expression_of ts t ->
  arithmetic (get_ttype op) = true ->
  forall before,
    expression_result (before ++ ts ++ [op]) (List.length before) =
    Raise IndexError.
Proof.
  intros Hts Hop.
  assert (Hat : forall before,
            nth_error (before ++ ts ++ [op]) (List.length before + List.length ts) =
            Some op).
  { intros before. rewrite app_assoc, <- length_app. apply nth_error_middle. }
  destruct (ttype_in (get_ttype op) [ASTERISK; FSLASH]) eqn:Hmul.
  - (* the last term goes on with [op] *)
    clear Hat. induction Hts as [ts t Ht|ts1 op' ts2 l r Hts1 _ Hop' Ht];
      intros before.
    + now rewrite expression_result_eq, (term_of_dangling ts t op Ht Hmul).
    + rewrite <- app_assoc. cbn [app].
      assert (Hat : nth_error (before ++ ts1 ++ op' :: ts2 ++ [op])
                      (List.length before + List.length ts1) = Some op').
      { rewrite nth_error_app2, Nat.add_comm, Nat.add_sub by lia.
        apply nth_error_middle. }
      rewrite (expression_of_result ts1 l Hts1 before (op' :: ts2 ++ [op])).
      2:{ intros x. rewrite Hat. intros [= <-].
          now apply additive_not_multiplicative. }
      rewrite expression_while_result_eq, Hat, Hop'.
      pose proof (term_of_dangling ts2 r op Ht Hmul (before ++ ts1 ++ [op'])) as T.
      repeat (rewrite <- ?app_assoc in T; cbn [app] in T).
      rewrite !length_app in T. cbn [List.length] in T.
      replace (List.length before + List.length ts1 + 1)
        with (List.length before + (List.length ts1 + 1)) by lia.
      now rewrite T.
  - (* the loop of [parse_expression] takes [op] *)
    intros before.
    assert (Hadd : ttype_in (get_ttype op) [PLUS; MINUS] = true).
    { unfold arithmetic in Hop. destruct (get_ttype op); cbn in *; congruence. }
    rewrite (expression_of_result ts t Hts before [op]).
    2:{ intros x. rewrite Hat. now intros [= <-]. }
    rewrite expression_while_result_eq, Hat, Hadd, term_result_end; [reflexivity|].
    rewrite !length_app. cbn [List.length]. lia.
Qed.

(** X14. An operator left without its right operand at the end of the
    tokens is met by an unguarded [tokens[curr]] in [parse_factor]: on
    an expression followed by a last [+], [-], [*] or [/],
    [parse_expression(tokens, 0)] raises [IndexError], and so does the
    parsing stage when the first token is not a bracket. *)
Theorem dangling_operator (ts : list Token) (t : ast) (op : Token) :
  expression_of ts t ->
  arithmetic (get_ttype op) = true ->
  parse_expression (parse_fuel (ts ++ [op])) (ts ++ [op]) 0 = Raise IndexError /\
  (hd_error (map get_ttype ts) <> Some LBRACKET ->
   parse (ts ++ [op]) = Raise IndexError).
Proof.
  intros Hts Hop.
  assert (E : parse_expression (parse_fuel (ts ++ [op])) (ts ++ [op]) 0 =
              Raise IndexError).
  { rewrite parse_fuel_result.
    exact (expression_of_dangling ts t op Hts Hop []). }
  split; [exact E|].
  intros Hfirst. unfold parse.
  rewrite (outer_brackets_kept ts [op] t Hts Hfirst). cbn [bind].
  now rewrite E.
Qed.

Lemma dangling_operator_witness :
  parse ([num "1"; Token1 ASTERISK; num "2"] ++ [Token1 MINUS]) = Raise IndexError.
Proof.
  apply (dangling_operator [num "1"; Token1 ASTERISK; num "2"]
           (Expr (Tok (num "1")) (Token1 ASTERISK) (Tok (num "2")))
           (Token1 MINUS)).
  - apply expression_of_term.
    apply (term_of_more [num "1"] (Token1 ASTERISK) [num "2"]);
      [apply term_of_number|reflexivity|apply factor_of_number]; reflexivity.
  - reflexivity.
  - discriminate.
Defined.

(** ** A bracket that is not closed *)

(** X15. When the run of [parse_expression(tokens, 0)] calls
    [parse_factor] on an opening bracket, and the expression after it is
    parsed but not followed by a closing bracket (another token, or the
    end of the tokens), the run raises
    [ValueError("Expected closing bracket")]: [consume_token] tests the
    bounds before it reads the token. *)
Theorem bracket_not_closed (tokens : list Token) (curr : nat) (opening : Token)
    (fuel : nat) (expr : ast) (curr1 : nat) :
  factor_called tokens curr ->
  nth_error tokens curr = Some opening -> get_ttype opening = LBRACKET ->
  parse_expression fuel tokens (curr + 1) = Ok (expr, curr1) ->
  (forall tok, nth_error tokens curr1 = Some tok -> get_ttype tok <> RBRACKET) ->
  parse_expression (parse_fuel tokens) tokens 0 =
    Raise (ValueError "Expected closing bracket").
Proof.
  intros Hcalled Hopen Hl Hexpr Hclose.
  rewrite parse_fuel_result.
  apply (exception_propagates tokens (ValueError "Expected closing bracket"))
    with (curr := curr); [exact Hcalled|].
  rewrite factor_result_eq, Hopen, Hl. cbn [TokenType_eqb].
  destruct (parser_sound tokens fuel) as (Se & _).
  apply Se, expression_result_iff in Hexpr. rewrite Hexpr. cbn [bind].
  rewrite consume_token_unfold.
  destruct (nth_error tokens curr1) as [tok|]; [|reflexivity].
  specialize (Hclose tok eq_refl). apply TokenType_eqb_neq in Hclose.
  now rewrite Hclose.
Qed.

Lemma bracket_not_closed_witness :
  parse_expression
    (parse_fuel [num "2"; Token1 ASTERISK; Token1 LBRACKET; num "1"; Token1 PLUS;
                 num "2"])
    [num "2"; Token1 ASTERISK; Token1 LBRACKET; num "1"; Token1 PLUS; num "2"] 0 =
  Raise (ValueError "Expected closing bracket").
Proof.
  apply (bracket_not_closed _ 2 (Token1 LBRACKET) 18
           (Expr (Tok (num "1")) (Token1 PLUS) (Tok (num "2"))) 6).
  - apply (called_next_factor _ (Tok (num "2")) 1 (Token1 ASTERISK));
      [|reflexivity|reflexivity].
    apply (term_while_entered _ 0).
    + apply called_first_term, called_at_top.
    + apply (factor_at_num _ 0 (num "2")); reflexivity.
  - reflexivity.
  - reflexivity.
  - vm_compute. reflexivity.
  - intros tok H. discriminate H.
Defined.

(** ** The exceptions of the parser *)

Lemma bind_Raise {A B : Type} (m : result A) (k : A -> result B) (e : exn) :
  bind m k = Raise e -> m = Raise e \/ exists a, m = Ok a /\ k a = Raise e.
Proof.
  destruct m as [a| |]; cbn [bind]; intros H.
  - right. exists a. now split.
  - left. injection H as <-. reflexivity.
  - discriminate.
Qed.

Lemma parser_Raise (tokens : list Token) (e : exn) : forall fuel,
  (forall curr, parse_expression fuel tokens curr = Raise e -> In e parser_errors) /\
  (forall left_ curr,
     parse_expression_while fuel tokens left_ curr = Raise e -> In e parser_errors) /\
  (forall curr, parse_term fuel tokens curr = Raise e -> In e parser_errors) /\
  (forall left_ curr,
     parse_term_while fuel tokens left_ curr = Raise e -> In e parser_errors) /\
  (forall curr, parse_factor fuel tokens curr = Raise e -> In e parser_errors).
Proof.
  induction fuel as [|fuel (IHe & IHew & IHt & IHtw & IHf)].
  { repeat split; intros; discriminate. }
  repeat split.
  - intros curr H. rewrite parse_expression_unfold in H.
    apply bind_Raise in H as [H|([l c1] & _ & H)]; eauto.
  - intros l curr H. rewrite parse_expression_while_unfold in H.
    destruct (nth_error tokens curr) as [op|]; [|discriminate].
    destruct (ttype_in (get_ttype op) [PLUS; MINUS]); [|discriminate].
    apply bind_Raise in H as [H|([r c1] & _ & H)]; eauto.
  - intros curr H. rewrite parse_term_unfold in H.
    apply bind_Raise in H as [H|([l c1] & _ & H)]; eauto.
  - intros l curr H. rewrite parse_term_while_unfold in H.
    destruct (nth_error tokens curr) as [op|]; [|discriminate].
    destruct (ttype_in (get_ttype op) [ASTERISK; FSLASH]); [|discriminate].
    apply bind_Raise in H as [H|([r c1] & _ & H)]; eauto.
  - intros curr H. rewrite parse_factor_unfold in H.
    destruct (nth_error tokens curr) as [token|];
      [|injection H as <-; cbn; auto].
    destruct (TokenType_eqb (get_ttype token) NUM); [discriminate|].
    destruct (TokenType_eqb (get_ttype token) LBRACKET);
      [|injection H as <-; cbn; auto].
    apply bind_Raise in H as [H|([x c1] & _ & H)]; [eauto|].
    apply bind_Raise in H as [H|(c2 & _ & H)]; [|discriminate].
    rewrite consume_token_unfold in H.
    destruct (nth_error tokens c1) as [closing|];
      [|injection H as <-; cbn; auto].
    destruct (TokenType_eqb (get_ttype closing) RBRACKET); [discriminate|].
    injection H as <-. cbn. auto.
Qed.

Lemma outer_brackets_Raise (tokens : list Token) (e : exn) :
  outer_brackets tokens = Raise e ->
  e = IndexError \/ e = ValueError "Expected closing bracket".
Proof.
  unfold outer_brackets, last_item, item. intros H.
  destruct (nth_error tokens 0) as [first|]; cbn [bind] in H;
    [|injection H as <-; now left].
  destruct (TokenType_eqb (get_ttype first) LBRACKET); [|discriminate].
  destruct (nth_error tokens (List.length tokens - 1)) as [last|];
    cbn [bind] in H; [|injection H as <-; now left].
  destruct (TokenType_eqb (get_ttype last) RBRACKET); [discriminate|].
  injection H as <-. now right.
Qed.

Lemma parse_Raise_errors (tokens : list Token) (e : exn) :
  parse tokens = Raise e -> In e parser_errors.
Proof.
  unfold parse. intros H.
  apply bind_Raise in H as [H|(tokens' & _ & H)].
  - apply outer_brackets_Raise in H as [-> | ->]; cbn; auto.
  - apply bind_Raise in H as [H|([a c] & _ & H)]; [|discriminate].
    destruct (parser_Raise tokens' e (parse_fuel tokens')) as (He & _).
    exact (He 0 H).
Qed.

(** The tree that the parsing stage makes of scanned tokens is well
    formed, with leaves that [float] reads. *)
Lemma scanned_tree (source : string) (tokens : list Token) (t : ast) :
  scan source = Ok tokens -> parse tokens = Ok t ->
  well_formed t = true /\ Forall literal (tokens_of t).
Proof.
  intros Hscan Hparse. split.
  - apply parser_returns_well_formed. exists tokens. now left.
  - apply scan_literals in Hscan. rewrite Forall_forall in *.
    intros tok Hin. apply Hscan.
    apply parse_Ok in Hparse as (tokens' & curr & Htok & Hparse).
    destruct (parser_sound tokens' (parse_fuel tokens')) as (Se & _).
    destruct (derivation_well_formed tokens') as (De & _).
    apply Se, De in Hparse as [_ Hincl].
    apply Hincl in Hin. destruct Htok as [->| ->]; [exact Hin|].
    revert Hin. apply incl_slice.
Qed.

(** ** Witnesses *)

Lemma parse_expression_grammar_witness :
  expression_of [num "1"; Token1 MINUS; num "2"; Token1 MINUS; num "3"]
    (Expr (Expr (Tok (num "1")) (Token1 MINUS) (Tok (num "2")))
       (Token1 MINUS) (Tok (num "3"))).
Proof. apply parse_expression_grammar. vm_compute. reflexivity. Defined.

(** ** The span of a number *)

(** X3. [scan_num], started on a digit, returns the index of the last
    character of the longest number there: from [curr] to the returned
    index the text holds digits and at most one point, which is not the
    first character, and the character after the returned index, if
    any, is neither a digit nor a point.  The last character may be the
    point itself (as in ["1."]), not a digit. *)
Theorem scan_num_span (source : string) (curr curr' : nat) :
  digit_at source curr = true ->
  scan_num source curr = Ok curr' ->
  curr <= curr' < String.length source /\
  (exists p, curr <= p <= curr' /\
     (forall i, curr <= i <= p -> digit_at source i = true) /\
     (forall i, p < i <= curr' ->
        if i =? p + 1 then point_at source i = true
        else digit_at source i = true)) /\
  digit_at source (curr' + 1) = false /\
  point_at source (curr' + 1) = false.
Proof.
  intros Hd H.
  pose proof (scan_num_forward _ _ _ H) as Hfw.
  pose proof (scan_num_in_range _ _ _ (digit_at_length _ _ Hd) H) as Hin.
  pose proof (scan_num_next _ _ _ H) as [Hnd Hnp].
  split; [lia|]. split; [|now split].
  apply scan_num_Ok in H as (p & Hp & Hdig & Hshape).
  exists p.
  assert (D : forall i, curr <= i <= p -> digit_at source i = true).
  { intros i Hi. destruct (Nat.eq_dec i curr) as [->|Hne]; [exact Hd|].
    apply Hdig. lia. }
  destruct Hshape as [[-> _]|(Hc & Hpt & Hd2)].
  - split; [lia|]. split; [exact D|]. intros i Hi. lia.
  - split; [lia|]. split; [exact D|]. intros i Hi.
    destruct (Nat.eqb_spec i (p + 1)) as [->|Hne]; [exact Hpt|].
    apply Hd2. lia.
Qed.

Lemma scan_num_span_witness :
  2 <= 4 < String.length "7*12.+3" /\
  (exists p, 2 <= p <= 4 /\
     (forall i, 2 <= i <= p -> digit_at "7*12.+3" i = true) /\
     (forall i, p < i <= 4 ->
        if i =? p + 1 then point_at "7*12.+3" i = true
        else digit_at "7*12.+3" i = true)) /\
  digit_at "7*12.+3" (4 + 1) = false /\
  point_at "7*12.+3" (4 + 1) = false.
Proof. apply (scan_num_span "7*12.+3" 2 4); vm_compute; reflexivity. Defined.

(** ** A token where a number or a bracket is expected *)

(** X16. When the run of [parse_expression(tokens, 0)] calls
    [parse_factor] on a token that is neither a number nor an opening
    bracket (an operator after an operator, a closing bracket, a point),
    the run raises [ValueError("Unexpected token")], and so does the
    parsing stage on the tokens it keeps. *)
Theorem unexpected_token (tokens : list Token) (curr : nat) (token : Token) :
  factor_called tokens curr ->
  nth_error tokens curr = Some token ->
  get_ttype token <> NUM -> get_ttype token <> LBRACKET ->
  parse_expression (parse_fuel tokens) tokens 0 =
    Raise (ValueError "Unexpected token") /\
  forall tokens0, outer_brackets tokens0 = Ok tokens ->
    parse tokens0 = Raise (ValueError "Unexpected token").
Proof.
  intros Hcalled Htok Hnum Hl.
  assert (E : parse_expression (parse_fuel tokens) tokens 0 =
              Raise (ValueError "Unexpected token")).
  { rewrite parse_fuel_result.
    apply (exception_propagates tokens (ValueError "Unexpected token"))
      with (curr := curr); [exact Hcalled|].
    rewrite factor_result_eq, Htok.
    apply TokenType_eqb_neq in Hnum, Hl. now rewrite Hnum, Hl. }
  split; [exact E|].
  intros tokens0 H0. unfold parse. rewrite H0. cbn [bind]. now rewrite E.
Qed.

Lemma unexpected_token_witness :
  parse [num "1"; Token1 PLUS; Token1 ASTERISK; num "2"] =
  Raise (ValueError "Unexpected token").
Proof.
  destruct (unexpected_token [num "1"; Token1 PLUS; Token1 ASTERISK; num "2"] 2
              (Token1 ASTERISK)) as [_ H].
  - apply called_first_factor.
    apply (called_next_term _ (Tok (num "1")) 1 (Token1 PLUS));
      [|reflexivity|reflexivity].
    apply (expression_while_entered _ 0); [apply called_at_top|].
    apply (term_at_intro _ 0 (Tok (num "1")) 1).
    + apply (factor_at_num _ 0 (num "1")); reflexivity.
    + apply term_loop_exit. intros op [= <-]. reflexivity.
  - reflexivity.
  - discriminate.
  - discriminate.
  - apply H. reflexivity.
Defined.

(** ** The points that become [DOT] tokens *)
















(** ** A text that starts with a bracket and does not end with one *)

Lemma string_length_append (s1 s2 : string) :
  String.length (s1 ++ s2) = String.length s1 + String.length s2.
Proof. induction s1 as [|c s1 IH]; cbn; [reflexivity|now rewrite IH]. Qed.

Lemma substring_all (s : string) : substring 0 (String.length s) s = s.
Proof. induction s as [|c s IH]; cbn; [reflexivity|now rewrite IH]. Qed.

Lemma scan_tokens_text (source : string) (tokens : list Token) :
  scan source = Ok tokens -> tokens_text tokens = without_spaces source.
Proof.
  intros H. apply scan_while_text in H; [|lia].
  rewrite H. cbn [tokens_text append]. now rewrite Nat.sub_0_r, substring_all.
Qed.

Lemma bracket_text_Token1 (ttype : TokenType) :
  ttype <> NUM -> bracket_text (Token1 ttype).
Proof.
  intros H. unfold bracket_text, token_text. cbn [get_value get_ttype Token1].
  destruct ttype; try (now elim H); cbn; repeat split;
    try discriminate; try reflexivity; intros E; discriminate E.
Qed.

Lemma scan_while_bracket_text (source : string) : forall fuel curr tokens tokens',
  Forall bracket_text tokens ->
  scan_while fuel source curr tokens = Ok tokens' ->
  Forall bracket_text tokens'.
Proof.
  induction fuel as [|fuel IH]; intros curr tokens tokens' Hall H; [discriminate|].
  assert (Hone : forall ttype, ttype <> NUM ->
                 Forall bracket_text (tokens ++ [Token1 ttype])).
  { intros ttype Hty. apply Forall_app. split; [exact Hall|].
    constructor; [now apply bracket_text_Token1|constructor]. }
  destruct (scan_while_cases fuel source curr tokens)
    as [[_ E]|[[Hd Hlen]|(c & Hc & Hd)]].
  - rewrite E in H. now injection H as <-.
  - rewrite scan_while_digit in H by exact Hd.
    apply bind_Ok in H as [curr' [Hnum H]].
    apply IH in H; [exact H|].
    apply Forall_app. split; [exact Hall|]. constructor; [|constructor].
    pose proof (scan_num_forward _ _ _ Hnum) as Hfw.
    pose proof (scan_num_in_range _ _ _ Hlen Hnum) as Hin.
    unfold bracket_text, token_text. cbn [get_value get_ttype].
    split; [|split; [|discriminate]].
    + intros E. apply (f_equal String.length) in E.
      rewrite length_substring in E by lia. cbn in E. lia.
    + rewrite substring_correct1 by lia. cbn [Nat.add].
      unfold digit_at in Hd.
      destruct (String.get curr source) as [c|]; [|discriminate].
      intros [= ->]. discriminate.
  - rewrite (scan_while_other fuel source curr tokens c Hc Hd) in H.
    repeat match type of H with
           | (if ?b then _ else _) = _ =>
               destruct b;
               [apply IH in H;
                [exact H|try apply Hone; try discriminate; try exact Hall]|]
           end.
    discriminate.
Qed.

Lemma get_first_append (s1 s2 : string) :
  s1 <> "" -> String.get 0 (s1 ++ s2) = String.get 0 s1.
Proof. destruct s1; [congruence|reflexivity]. Qed.

Lemma get_last_append (s : string) (c : ascii) :
  String.get (String.length (s ++ String c "") - 1) (s ++ String c "") = Some c.
Proof.
  rewrite get_append, string_length_append. cbn [String.length].
  replace (String.length s + 1 - 1 <? String.length s) with false
    by (symmetry; apply Nat.ltb_ge; lia).
  now replace (String.length s + 1 - 1 - String.length s) with 0 by lia.
Qed.

(** X13. Whatever lies between them, a text whose first character other
    than a space is an opening bracket and whose last character other
    than a space is not a closing bracket is refused: when scanning
    succeeds, [main] raises [ValueError("Expected closing bracket")]
    without parsing, so that a product that starts with a group, as
    ["(2+3)*4"], is never evaluated. *)
Theorem leading_bracket_rejected (source : string) (tokens : list Token) :
  scan source = Ok tokens ->
  String.get 0 (without_spaces source) = Some "("%char ->
  String.get (String.length (without_spaces source) - 1) (without_spaces source)
    <> Some ")"%char ->
  main source = Raise (ValueError "Expected closing bracket").
Proof.
  intros Hscan Hfirst Hlast.
  pose proof (scan_tokens_text source tokens Hscan) as Htext.
  assert (Hall : Forall bracket_text tokens).
  { revert Hscan. apply scan_while_bracket_text. constructor. }
  rewrite <- Htext in Hfirst, Hlast.
  destruct tokens as [|first rest]; [discriminate Hfirst|].
  destruct (exists_last (l := first :: rest)) as (init & last & Hsplit);
    [discriminate|].
  assert (Hf : get_ttype first = LBRACKET).
  { apply Forall_inv in Hall. destruct Hall as (Hne & Hopen & _).
    apply Hopen. cbn [tokens_text] in Hfirst.
    now rewrite get_first_append in Hfirst. }
  assert (Hl : get_ttype last <> RBRACKET).
  { intros Hr. rewrite Hsplit in Hall, Hlast.
    apply Forall_app in Hall as [_ Hall]. apply Forall_inv in Hall.
    destruct Hall as (_ & _ & Hclose). apply Hclose in Hr.
    rewrite tokens_text_last, Hr in Hlast. apply Hlast, get_last_append. }
  unfold main. rewrite Hscan. cbn [bind].
  rewrite (outer_brackets_unclosed (first :: rest) first last);
    [reflexivity|reflexivity|exact Hf| |exact Hl].
  rewrite Hsplit, length_app. cbn [List.length].
  replace (List.length init + 1 - 1) with (List.length init) by lia.
  apply nth_error_middle.
Qed.

Lemma leading_bracket_rejected_witness :
  main " ( 2+3 ) * ( 4 - 1 ) / 5 " = Raise (ValueError "Expected closing bracket").
Proof.
  apply (leading_bracket_rejected " ( 2+3 ) * ( 4 - 1 ) / 5 "
           [Token1 LBRACKET; num "2"; Token1 PLUS; num "3"; Token1 RBRACKET;
            Token1 ASTERISK; Token1 LBRACKET; num "4"; Token1 MINUS; num "1";
            Token1 RBRACKET; Token1 FSLASH; num "5"]).
  - vm_compute. reflexivity.
  - reflexivity.
  - vm_compute. discriminate.
Defined.

(** ** Where the exceptions of [main] come from *)

(** X18. [ZeroDivisionError] has one cause: when [main] raises it,
    scanning and parsing have succeeded, the tree is an [Expr] object,
    and its evaluation has reached a division whose right operand
    evaluated to zero.  And when [main] returns a number, the tree is an
    [Expr] object, no such division was reached, and the number is the
    value of the tree. *)
Theorem division_outcomes (source : string) :
  (main source = Raise ZeroDivisionError ->
   exists tokens left_ op right_,
     scan source = Ok tokens /\ parse tokens = Ok (Expr left_ op right_) /\
     zero_division (Expr left_ op right_) = true) /\
  (forall v, main source = Ok v ->
   exists tokens left_ op right_,
     scan source = Ok tokens /\ parse tokens = Ok (Expr left_ op right_) /\
     zero_division (Expr left_ op right_) = false /\
     Expr_evaluate left_ op right_ = Ok v).
Proof.
  assert (G : forall o, main source = o ->
            (forall e, o = Raise e -> e = ZeroDivisionError ->
               exists tokens l op r,
                 scan source = Ok tokens /\ parse tokens = Ok (Expr l op r) /\
                 zero_division (Expr l op r) = true) /\
            (forall v, o = Ok v ->
               exists tokens l op r,
                 scan source = Ok tokens /\ parse tokens = Ok (Expr l op r) /\
                 zero_division (Expr l op r) = false /\
                 Expr_evaluate l op r = Ok v)).
  { intros o Ho. unfold main in Ho.
    destruct (scan source) as [tokens|e0|] eqn:Hscan; cbn [bind] in Ho.
    2:{ subst o. split; [|discriminate]. intros e [= <-] ->.
        apply scan_while_Raise in Hscan as [E|[E _]]; discriminate E. }
    2:{ subst o. split; discriminate. }
    destruct (parse tokens) as [t|e0|] eqn:Hparse; cbn [bind] in Ho.
    2:{ subst o. split; [|discriminate]. intros e [= <-] ->.
        apply parse_Raise_errors in Hparse. cbn in Hparse.
        repeat (destruct Hparse as [Hparse|Hparse]; try discriminate Hparse).
        exact (False_ind _ Hparse). }
    2:{ subst o. split; discriminate. }
    destruct t as [tok|l op r]; cbn [evaluate] in Ho.
    { subst o. split; [|discriminate]. intros e [= <-] E. discriminate E. }
    destruct (scanned_tree source tokens _ Hscan Hparse) as [Hwf Hlit].
    change (Expr_evaluate l op r) with (operand_value (Expr l op r)) in Ho.
    destruct (operand_value_cases (Expr l op r) Hwf Hlit)
      as [(v & Ev & Z)|[Ev Z]]; rewrite Ev in Ho; subst o.
    - split; [discriminate|]. intros v' [= <-].
      exists tokens, l, op, r. repeat split; assumption.
    - split; [|discriminate]. intros e _ _.
      exists tokens, l, op, r. repeat split; assumption. }
  split.
  - intros H. destruct (G _ H) as [G1 _]. now apply (G1 ZeroDivisionError).
  - intros v H. destruct (G _ H) as [_ G2]. now apply G2.
Qed.

Lemma division_outcomes_witness :
  exists tokens left_ op right_,
    scan "8/(3-3)" = Ok tokens /\ parse tokens = Ok (Expr left_ op right_) /\
    zero_division (Expr left_ op right_) = true.
Proof. apply (division_outcomes "8/(3-3)"). vm_compute. reflexivity. Defined.

(** X20. Every [ValueError] that [main] lets out comes from the scanner
    or from the parser and carries one of four messages: the empty one
    and "Number has two decimal points" when scanning fails, "Unexpected
    token" and "Expected closing bracket" when scanning has succeeded
    and parsing fails.  The evaluation raises no [ValueError] and no
    [TypeError]: on the trees of the pipeline the conversions
    [float(...)] do not fail and the "Unknown operator" case of
    [Expr.evaluate] is not reached. *)
Theorem value_errors (source : string) :
  (forall msg, main source = Raise (ValueError msg) ->
     (scan source = Raise (ValueError msg) /\
      In msg [""; "Number has two decimal points"]) \/
     (exists tokens,
        scan source = Ok tokens /\ parse tokens = Raise (ValueError msg) /\
        In msg ["Unexpected token"; "Expected closing bracket"])) /\
  main source <> Raise TypeError.
Proof.
  split.
  - intros msg H. unfold main in H.
    apply bind_Raise in H as [H|(tokens & Hscan & H)].
    + left. split; [exact H|].
      apply scan_while_Raise in H as [E|[E _]]; injection E as ->; cbn; auto.
    + right. exists tokens. split; [exact Hscan|].
      apply bind_Raise in H as [H|(t & Hparse & H)].
      * split; [exact H|]. apply parse_Raise_errors in H. cbn in H.
        destruct H as [H|[H|[H|[]]]]; [discriminate H| |];
          injection H as <-; cbn; auto.
      * exfalso. destruct t as [tok|l op r]; [discriminate H|].
        destruct (scanned_tree source tokens _ Hscan Hparse) as [Hwf Hlit].
        cbn [evaluate] in H.
        change (Expr_evaluate l op r) with (operand_value (Expr l op r)) in H.
        destruct (operand_value_cases (Expr l op r) Hwf Hlit)
          as [(v & Ev & _)|[Ev _]]; rewrite Ev in H; discriminate H.
  - intros H. unfold main in H.
    apply bind_Raise in H as [H|(tokens & Hscan & H)].
    + apply scan_while_Raise in H as [E|[E _]]; discriminate E.
    + apply bind_Raise in H as [H|(t & Hparse & H)].
      * apply parse_Raise_errors in H. cbn in H.
        repeat (destruct H as [H|H]; try discriminate H). exact H.
      * destruct t as [tok|l op r]; [discriminate H|].
        destruct (scanned_tree source tokens _ Hscan Hparse) as [Hwf Hlit].
        cbn [evaluate] in H.
        change (Expr_evaluate l op r) with (operand_value (Expr l op r)) in H.
        destruct (operand_value_cases (Expr l op r) Hwf Hlit)
          as [(v & Ev & _)|[Ev _]]; rewrite Ev in H; discriminate H.
Qed.

Lemma value_errors_witness :
  (scan "2*(1+3" = Raise (ValueError "Expected closing bracket") /\
   In "Expected closing bracket" [""; "Number has two decimal points"]) \/
  (exists tokens,
     scan "2*(1+3" = Ok tokens /\
     parse tokens = Raise (ValueError "Expected closing bracket") /\
     In "Expected closing bracket" ["Unexpected token"; "Expected closing bracket"]).
Proof.
  destruct (value_errors "2*(1+3") as [H _]. apply H. vm_compute. reflexivity.
Defined.
